(** * post_copy.py: the KBase JupyterLab overlay post-copy script

    A shallow embedding of [src/post_copy.py] and the properties of its three
    steps: the rewrite of [pyproject.toml] ([modify_pyproject]), the splice
    into [<python_name>/__init__.py] ([modify_init]) and the removal of the
    template's files ([delete_files]).

    Texts are the decoded strings that [Path.read_text] returns and
    [Path.write_text] receives, as lists of characters.  A character is a
    code point below 256 (Rocq's [ascii]); on that range Python's [\d] is
    [0-9] and [\s] is the set given by [is_space]. *)

From Stdlib Require Import Ascii String List Arith Lia Bool.
From stdpp Require Import base list strings gmap.

Local Open Scope list_scope.

(** ** Texts *)

Module Text.

Abbreviation text := (list ascii).

(** The double quote and the line feed, which a Rocq string literal cannot
    spell directly. *)
Definition dq : ascii := "034"%char.
Definition nl : ascii := "010"%char.

(** [tx s] reads a literal in which ['] stands for the double quote and [|]
    for the line feed; everything else is itself. *)
Definition tx_char (c : ascii) : ascii :=
  if Ascii.eqb c "'" then dq else if Ascii.eqb c "|" then nl else c.

Definition tx (s : string) : text := map tx_char (list_ascii_of_string s).

(** [starts w s]: the text [s] begins with [w]; the rest is returned
    ([s.startswith(w)], and what is left after it). *)
Fixpoint starts (w s : text) : option text :=
  match w, s with
  | [], _ => Some s
  | a :: w', c :: s' => if Ascii.eqb a c then starts w' s' else None
  | _ :: _, [] => None
  end.

(** [w in s] of Python, for strings. *)
Fixpoint occurs (w s : text) : bool :=
  match starts w s with
  | Some _ => true
  | None => match s with
            | [] => false
            | _ :: s' => occurs w s'
            end
  end.

(** The left-to-right scan shared by [re.sub] and [str.replace]: at each
    position the matcher [m] is tried on what is left of the text; it
    answers with the text after the match.  A match is replaced by [repl]
    of the matched characters and the scan goes on after it; without a
    match the character is copied.  [skip] counts the characters of a match
    still to be passed over.  A match of no character puts [repl] in and
    copies the character, as Python does. *)
Fixpoint scan (m : text -> option text) (repl : text -> text)
    (skip : nat) (s : text) : text :=
  match s with
  | [] =>
      match skip with
      | 0 => match m [] with Some _ => repl [] | None => [] end
      | S _ => []
      end
  | c :: s' =>
      match skip with
      | S k => scan m repl k s'
      | 0 =>
          match m s with
          | Some rest =>
              let n := length s - length rest in
              repl (take n s) ++
              match n with
              | 0 => c :: scan m repl 0 s'
              | S k => scan m repl k s'
              end
          | None => c :: scan m repl 0 s'
          end
      end
  end.

(** [s.replace(old, new)]. *)
Definition str_replace (old new s : text) : text :=
  scan (starts old) (fun _ => new) 0 s.

(** [s.split(sep, maxsplit)] for a separator that is not empty: the pieces
    between the first [maxsplit] occurrences of [sep], found left to right,
    and the rest. *)
Fixpoint split_at (sep s : text) : option (text * text) :=
  match starts sep s with
  | Some rest => Some ([], rest)
  | None =>
      match s with
      | [] => None
      | c :: s' =>
          match split_at sep s' with
          | Some (a, b) => Some (c :: a, b)
          | None => None
          end
      end
  end.

Fixpoint split (sep : text) (maxsplit : nat) (s : text) : list text :=
  match maxsplit with
  | 0 => [s]
  | S n =>
      match split_at sep s with
      | Some (a, b) => a :: split sep n b
      | None => [s]
      end
  end.

End Text.

(** ** The regular expressions of the script *)

Module Re.
Import Text.

(** The constructs that the script's patterns use.  A repetition is always
    over one character class: [p{lo,}], greedy or lazy. *)
Inductive regex :=
| Lit (w : text)
| Cls (p : ascii -> bool)
| Rep (p : ascii -> bool) (lo : nat) (greedy : bool)
| Opt (r : regex)
| Alt (r1 r2 : regex)
| Seq (r1 r2 : regex)
| Look (r : regex)
| EndZ.

(** Greedy [p*]: take a character first, give it back when what follows
    fails. *)
Fixpoint rep_greedy (p : ascii -> bool) (s : text)
    (k : text -> option text) : option text :=
  match s with
  | c :: s' =>
      if p c then
        match rep_greedy p s' k with
        | Some r => Some r
        | None => k s
        end
      else k s
  | [] => k []
  end.

(** Lazy [p*?]: try what follows first, take a character when it fails. *)
Fixpoint rep_lazy (p : ascii -> bool) (s : text)
    (k : text -> option text) : option text :=
  match k s with
  | Some r => Some r
  | None =>
      match s with
      | c :: s' => if p c then rep_lazy p s' k else None
      | [] => None
      end
  end.

(** The [lo] characters that a repetition must take. *)
Fixpoint rep_min (p : ascii -> bool) (lo : nat) (s : text)
    (k : text -> option text) : option text :=
  match lo with
  | 0 => k s
  | S n =>
      match s with
      | c :: s' => if p c then rep_min p n s' k else None
      | [] => None
      end
  end.

(** Backtracking matcher in continuation style: [re_match r s k] matches
    [r] at the start of [s] and hands what is left to [k]; when [k] fails
    the next way to match [r] is tried, in the order of Python's engine. *)
Fixpoint re_match (r : regex) (s : text)
    (k : text -> option text) : option text :=
  match r with
  | Lit w => match starts w s with Some s' => k s' | None => None end
  | Cls p =>
      match s with
      | c :: s' => if p c then k s' else None
      | [] => None
      end
  | Rep p lo g =>
      rep_min p lo s
        (fun s' => if g then rep_greedy p s' k else rep_lazy p s' k)
  | Opt r1 =>
      match re_match r1 s k with
      | Some x => Some x
      | None => k s
      end
  | Alt r1 r2 =>
      match re_match r1 s k with
      | Some x => Some x
      | None => re_match r2 s k
      end
  | Seq r1 r2 => re_match r1 s (fun s' => re_match r2 s' k)
  | Look r1 =>
      match re_match r1 s Some with
      | Some _ => k s
      | None => None
      end
  | EndZ => match s with [] => k [] | _ :: _ => None end
  end.

(** A match of [r] at the start of [s]: the text after it. *)
Definition match_at (r : regex) (s : text) : option text := re_match r s Some.

(** [re.sub(r, repl, s)], with the replacement as a function of the matched
    text (a fixed string, or one built from group 1 when the group is the
    whole pattern). *)
Definition re_sub (r : regex) (repl : text -> text) (s : text) : text :=
  scan (match_at r) repl 0 s.

(** [re.search(r, s) is not None]. *)
Fixpoint re_search (r : regex) (s : text) : bool :=
  match match_at r s with
  | Some _ => true
  | None => match s with [] => false | _ :: s' => re_search r s' end
  end.

(** Character classes. *)
Definition code (c : ascii) : nat := nat_of_ascii c.

Definition is_digit (c : ascii) : bool := (48 <=? code c) && (code c <=? 57).

Definition is_dot (c : ascii) : bool := Ascii.eqb c ".".

Definition is_nl (c : ascii) : bool := Ascii.eqb c nl.

(** [\s] on code points below 256: tab to carriage return, the four
    separators 28 to 31, the space, NEL and the no-break space. *)
Definition is_space (c : ascii) : bool :=
  ((9 <=? code c) && (code c <=? 13)) || ((28 <=? code c) && (code c <=? 32))
  || (code c =? 133) || (code c =? 160).

Definition any_char (c : ascii) : bool := true.

Fixpoint seq_of (rs : list regex) : regex :=
  match rs with
  | [] => Lit []
  | [r] => r
  | r :: rs' => Seq r (seq_of rs')
  end.

End Re.

(** ** [modify_pyproject]: the rewrite of the configuration document *)

Module PyProject.
Import Text Re.

(** [r'"hatch-nodejs-version>=[\d.]+"'] *)
Definition nodejs_dep_re : regex :=
  seq_of [Lit (tx "'hatch-nodejs-version>=");
          Rep (fun c => is_digit c || is_dot c) 1 true;
          Lit (tx "'")].

Definition vcs_dep : text := tx "'hatch-vcs>=0.4.0'".

(** [r'\[tool\.hatch\.version\]\nsource = "nodejs"'] *)
Definition nodejs_source : text := tx "[tool.hatch.version]|source = 'nodejs'".

Definition vcs_source : text := tx "[tool.hatch.version]|source = 'vcs'".

Definition local_scheme : text := tx "local_scheme".

(** What follows [\1] in the replacement of the local-scheme rule. *)
Definition raw_options : text :=
  tx "||[tool.hatch.version.raw-options]|local_scheme = 'no-local-version'".

Definition hook_marker : text := tx "tool.hatch.build.hooks.version".

Definition builder_header : text := tx "[tool.hatch.build.hooks.jupyter-builder]".

(** [f'[tool.hatch.build.hooks.version]\npath = "{python_name}/_version.py"'] *)
Definition version_hook (python_name : text) : text :=
  tx "[tool.hatch.build.hooks.version]|path = '" ++ python_name
  ++ tx "/_version.py'".

Definition releaser_options : text := tx "[tool.jupyter-releaser.options]".

Definition releaser_hooks : text := tx "[tool.jupyter-releaser.hooks]".

(** [header.*?(?=\[|\Z)] under [re.DOTALL]. *)
Definition section_re (header : text) : regex :=
  seq_of [Lit header;
          Rep any_char 0 false;
          Look (Alt (Lit (tx "[")) EndZ)].

(** [r'requires-python = ">=3\.\d+"'] *)
Definition requires_python_re : regex :=
  seq_of [Lit (tx "requires-python = '>=3.");
          Rep is_digit 1 true;
          Lit (tx "'")].

Definition requires_python_310 : text := tx "requires-python = '>=3.10'".

(** [r'\s*"Programming Language :: Python :: 3\.[89]",?\n'] *)
Definition classifier_re : regex :=
  seq_of [Rep is_space 0 true;
          Lit (tx "'Programming Language :: Python :: 3.");
          Cls (fun c => Ascii.eqb c "8" || Ascii.eqb c "9");
          Lit (tx "'");
          Opt (Lit (tx ","));
          Lit [nl]].

(** [r'\n{3,}'] *)
Definition blank_lines_re : regex := Rep is_nl 3 true.

(** The rules, in the order of the script. *)

Definition dependency_rule (content : text) : text :=
  re_sub nodejs_dep_re (fun _ => vcs_dep) content.

Definition source_rule (content : text) : text :=
  re_sub (Lit nodejs_source) (fun _ => vcs_source) content.

Definition local_scheme_rule (content : text) : text :=
  if negb (occurs local_scheme content) then
    re_sub (Lit vcs_source) (fun g1 => g1 ++ raw_options) content
  else content.

Definition hook_rule (python_name content : text) : text :=
  if negb (occurs hook_marker content) then
    str_replace builder_header
      (version_hook python_name ++ [nl; nl] ++ builder_header) content
  else content.

Definition remove_section (header content : text) : text :=
  re_sub (section_re header) (fun _ => []) content.

Definition requires_python_rule (content : text) : text :=
  re_sub requires_python_re (fun _ => requires_python_310) content.

Definition classifier_rule (content : text) : text :=
  re_sub classifier_re (fun _ => [nl]) content.

Definition blank_lines_rule (content : text) : text :=
  re_sub blank_lines_re (fun _ => [nl; nl]) content.

(** The text that [modify_pyproject] writes back, from the text it read. *)
Definition modify_pyproject_text (python_name content : text) : text :=
  let content := dependency_rule content in
  let content := source_rule content in
  let content := local_scheme_rule content in
  let content := hook_rule python_name content in
  let content := remove_section releaser_options content in
  let content := remove_section releaser_hooks content in
  let content := requires_python_rule content in
  let content := classifier_rule content in
  blank_lines_rule content.

End PyProject.

(** ** The working tree *)

Module Fs.
Import Text.








End Fs.

(** ** The steps of the script on the working tree *)

Module Script.
Import Text Re PyProject Fs.


Definition sq : ascii := "039"%char.

(** The block of [modify_init], with [python_name] put in by [format]. *)
Definition version_block (python_name : text) : text :=
  tx "try:|    from ._version import __version__|except ImportError:|"
  ++ tx "    import warnings|    warnings.warn('Importing " ++ [sq]
  ++ python_name ++ [sq] ++ tx " outside a proper installation.')|"
  ++ tx "    __version__ = 'dev'|".

Definition triple : text := [dq; dq; dq].

Definition marker : text := tx "_version".

(** The text that [modify_init] writes, from the text it read. *)
Definition splice (python_name content : text) : text :=
  if occurs triple content then
    match split triple 2 content with
    | p0 :: p1 :: p2 :: _ =>
        p0 ++ triple ++ p1 ++ triple ++ [nl; nl]
        ++ version_block python_name ++ p2
    | _ => version_block python_name ++ [nl] ++ content
    end
  else version_block python_name ++ [nl] ++ content.







End Script.

(** ** The entry point *)

Module Main.
Import Text Re PyProject Fs Script.


End Main.

(** ** Notions used by the statements *)

Module Spec.
Import Text Re PyProject Fs Script.

(** A matcher that takes at least one character and answers with what is
    left of its input. *)
Definition consuming (m : text -> option text) : Prop :=
  forall s r, m s = Some r -> exists M, M <> [] /\ s = M ++ r.

(** What is left of [s] after its longest prefix of characters of the
    class [p]. *)
Fixpoint skip_class (p : ascii -> bool) (s : text) : text :=
  match s with
  | c :: s' => if p c then skip_class p s' else s
  | [] => []
  end.

Definition not_bracket (c : ascii) : bool := negb (Ascii.eqb c "[").

(** The fixed part of the classifier that [classifier_re] looks for. *)
Definition classifier_head : text := tx "'Programming Language :: Python :: 3.".


(** The lines of a text: what lies between its line feeds
    ([s.split('\n')]). *)
Fixpoint lines (s : text) : list text :=
  match s with
  | [] => [[]]
  | c :: s' =>
      if is_nl c then [] :: lines s'
      else match lines s' with
           | l :: ls => (c :: l) :: ls
           | [] => [[c]]
           end
  end.

(** The lengths of the runs of consecutive blank (empty) lines, in order;
    [run] is the length of the run being read. *)
Fixpoint blank_runs_from (run : nat) (ls : list text) : list nat :=
  match ls with
  | [] => match run with 0 => [] | _ => [run] end
  | [] :: ls' => blank_runs_from (S run) ls'
  | (_ :: _) :: ls' =>
      match run with 0 => [] | _ => [run] end ++ blank_runs_from 0 ls'
  end.

Definition blank_runs (s : text) : list nat := blank_runs_from 0 (lines s).

(** The fixed part of the declaration that [requires_python_re] looks
    for. *)
Definition requires_python_head : text := tx "requires-python = '>=3.".

(** A word without a border: none of its proper prefixes is also its
    suffix, so two occurrences of it never overlap. *)
Definition borderless (L : text) : bool :=
  forallb (fun k => negb (bool_decide (take k L = drop (length L - k) L)))
          (seq 1 (length L - 1)).

(** [s.count(w)] for a word that is not empty: the occurrences of [w]
    found left to right, none overlapping another; [skip] counts the
    characters of an occurrence still to be passed over. *)
Fixpoint count_from (w : text) (skip : nat) (s : text) : nat :=
  match s with
  | [] => 0
  | _ :: s' =>
      match skip with
      | S k => count_from w k s'
      | 0 =>
          match starts w s with
          | Some _ => S (count_from w (length w - 1) s')
          | None => count_from w 0 s'
          end
      end
  end.

Definition count_sub (w s : text) : nat := count_from w 0 s.

(** The characters of the version in [nodejs_dep_re]: [[\d.]]. *)
Definition is_version_char (c : ascii) : bool := is_digit c || is_dot c.

(** The fixed part of the declaration that [nodejs_dep_re] looks for. *)
Definition nodejs_dep_head : text := tx "'hatch-nodejs-version>=".




(** The text up to its first double quote, the quote included; all of it
    when it has none. *)
Fixpoint head_seg (s : text) : text :=
  match s with
  | [] => []
  | c :: s' => if Ascii.eqb c dq then [c] else c :: head_seg s'
  end.

(** [found_other r w s]: somewhere in [s] the pattern [r] matches a text
    that does not begin with [w]. *)
Definition other_here (r : regex) (w s : text) : bool :=
  match match_at r s, starts w s with
  | Some _, None => true
  | _, _ => false
  end.

Fixpoint found_other (r : regex) (w s : text) : bool :=
  other_here r w s
  || match s with [] => false | _ :: s' => found_other r w s' end.

(** A text on which no rule of [modify_pyproject] but the last has
    anything left to do: no nodejs-version declaration and no nodejs
    version source; [local_scheme] there, or no vcs version source to put it
    after; the hook marker there, or no jupyter-builder header to put the
    hook before; no jupyter-releaser header; no requires-python declaration
    but the one for 3.10; no classifier of 3.8 or 3.9. *)
Definition settled (y : text) : bool :=
  negb (re_search nodejs_dep_re y)
  && negb (occurs nodejs_source y)
  && (occurs local_scheme y || negb (occurs vcs_source y))
  && (occurs hook_marker y || negb (occurs builder_header y))
  && negb (occurs releaser_options y)
  && negb (occurs releaser_hooks y)
  && negb (found_other requires_python_re requires_python_310 y)
  && negb (re_search classifier_re y).

(** The number of line feeds that a text begins with. *)
Fixpoint leading_nl (s : text) : nat :=
  match s with
  | c :: s' => if is_nl c then S (leading_nl s') else 0
  | [] => 0
  end.

(** [c] is a character of the word [w]. *)
Definition char_of (w : text) (c : ascii) : bool := existsb (Ascii.eqb c) w.

(** A text between two characters that are not characters of [w], and in
    which [w] does not occur: replacing one such text by another neither
    brings in nor takes away an occurrence of [w]. *)
Definition wrapped (w M : text) : Prop :=
  exists c1 mid c2,
    M = c1 :: mid ++ [c2] /\ char_of w c1 = false /\ char_of w c2 = false
    /\ occurs w mid = false.

(** Two texts that differ at a place that both have. *)
Fixpoint clash (a b : text) : bool :=
  match a, b with
  | x :: a', y :: b' => negb (Ascii.eqb x y) || clash a' b'
  | _, _ => false
  end.

(** What the raw-options section that [local_scheme_rule] puts in begins
    with, up to the option's name. *)
Definition raw_options_chunk : text :=
  tx "[tool.hatch.version.raw-options]|local_scheme".

(** The places of a word: the texts [drop i K] for [i] below its length. *)
Definition places (K : text) : list text :=
  map (fun i => drop i K) (seq 0 (length K)).

(** A matcher keeps the word [K], which begins with a bracket, when only
    the first character of a match can be an opening bracket, so that no
    match reaches [K] from the left, and no match begins at a place of
    [K]. *)
Definition keeps (m : text -> option text) (K : text) : Prop :=
  (forall M r, m (M ++ r) = Some r ->
               Forall (fun c => not_bracket c = true) (tail M))
  /\ (forall t v, t ∈ places K -> m (t ++ v) = None).

End Spec.

(** ** Further notions used by the statements *)

Module Notions.
Import Text Re PyProject Fs Script Main Spec.


(** The text before the first character [a] of a text; all of it when it
    has none. *)
Fixpoint before (a : ascii) (s : text) : text :=
  match s with
  | [] => []
  | c :: s' => if Ascii.eqb c a then [] else c :: before a s'
  end.

(** The words with one of which every rule of [modify_pyproject] begins its
    work: a text that has none of them is one that no rule matches. *)
Definition triggers : list text :=
  [nodejs_dep_head; nodejs_source; vcs_source; builder_header;
   releaser_options; releaser_hooks; requires_python_head; classifier_head;
   [nl; nl; nl]].

End Notions.

(** * Properties *)

Import Text Re PyProject Fs Script Main Spec Notions.

#[local] Arguments Ascii.eqb : simpl never.
#[local] Arguments tx : simpl never.

(** ** Prefixes and occurrences *)

Lemma starts_Some (w s r : text) : starts w s = Some r <-> s = w ++ r.
Proof.
  revert s. induction w as [|a w IH]; intros s; simpl.
  - split; congruence.
  - destruct s as [|c s]; [split; discriminate|].
    destruct (Ascii.eqb_spec a c) as [->|Hne].
    + rewrite IH. split; congruence.
    + split; [discriminate|]. intros [=]. congruence.
Qed.

Lemma starts_app (w r : text) : starts w (w ++ r) = Some r.
Proof. by rewrite starts_Some. Qed.

Lemma starts_None (w s : text) :
  starts w s = None <-> forall r, s <> w ++ r.
Proof.
  split.
  - intros H r ->. by rewrite starts_app in H.
  - intros H. destruct (starts w s) as [r|] eqn:E; [|done].
    apply starts_Some in E. by destruct (H r).
Qed.

Lemma occurs_nil (w : text) : occurs w [] = match w with [] => true | _ => false end.
Proof. by destruct w. Qed.

Lemma occurs_cons (w : text) (c : ascii) (s : text) :
  occurs w (c :: s) =
  match starts w (c :: s) with Some _ => true | None => occurs w s end.
Proof. done. Qed.

Lemma occurs_true (w s : text) :
  occurs w s = true <-> exists a b, s = a ++ w ++ b.
Proof.
  split.
  - induction s as [|c s IH].
    + rewrite occurs_nil. destruct w; [|discriminate]. by exists [], [].
    + rewrite occurs_cons. destruct (starts w (c :: s)) as [r|] eqn:E.
      * apply starts_Some in E. intros _. by exists [], r.
      * intros [a [b ->]]%IH. by exists (c :: a), b.
  - intros (a & b & ->). induction a as [|c a IH]; simpl app.
    + destruct (w ++ b) as [|c s] eqn:E.
      * apply app_eq_nil in E as [-> _]. done.
      * rewrite occurs_cons, <- E. by rewrite starts_app.
    + rewrite occurs_cons. by destruct (starts w _).
Qed.

(** ** The scan *)

Lemma scan_skip m repl k (s : text) :
  k <= length s -> scan m repl k s = scan m repl 0 (drop k s).
Proof.
  revert k. induction s as [|c s IH]; intros [|k] Hk; try done.
  - simpl in Hk. lia.
  - simpl in Hk. simpl scan at 1. rewrite IH by lia. done.
Qed.

Lemma scan_nil m repl : m [] = None -> scan m repl 0 [] = [].
Proof. simpl. by intros ->. Qed.

Lemma scan_copy m repl c (s : text) :
  m (c :: s) = None -> scan m repl 0 (c :: s) = c :: scan m repl 0 s.
Proof. simpl. by intros ->. Qed.

Lemma scan_match m repl (M r : text) :
  M <> [] -> m (M ++ r) = Some r ->
  scan m repl 0 (M ++ r) = repl M ++ scan m repl 0 r.
Proof.
  destruct M as [|c M]; [done|]. intros _ Hm.
  simpl app in *. simpl scan. rewrite Hm.
  replace (S (length (M ++ r)) - length r) with (S (length M))
    by (rewrite length_app; lia).
  rewrite (scan_skip _ _ (length M)) by (rewrite length_app; lia).
  change (take (S (length M)) (c :: M ++ r)) with (c :: take (length M) (M ++ r)).
  by rewrite take_app_length, drop_app_length.
Qed.

(** Induction along the scan of a text. *)
Lemma scan_ind m repl (P : text -> text -> Prop) :
  consuming m ->
  P [] [] ->
  (forall M r y, M <> [] -> m (M ++ r) = Some r -> P r y ->
     P (M ++ r) (repl M ++ y)) ->
  (forall c s y, m (c :: s) = None -> P s y -> P (c :: s) (c :: y)) ->
  forall s, P s (scan m repl 0 s).
Proof.
  intros Hm Hnil Hmatch Hcopy s.
  remember (length s) as n eqn:Hn. revert s Hn.
  induction n as [n IH] using lt_wf_ind. intros s ->.
  destruct s as [|c s].
  - simpl. destruct (m []) as [r|] eqn:E; [|done].
    apply Hm in E as (M & HM & E). by destruct M.
  - destruct (m (c :: s)) as [r|] eqn:E.
    + destruct (Hm _ _ E) as (M & HM & EM).
      assert (length r < length (c :: s)) as Hlen.
      { rewrite EM, length_app. destruct M; [done|]. simpl. lia. }
      rewrite EM in E |- *.
      rewrite scan_match by done. apply Hmatch; [done..|].
      by apply (IH (length r)).
    + rewrite scan_copy by done. apply Hcopy; [done|].
      apply (IH (length s)); [simpl; lia|done].
Qed.

(** ** The matcher on the shapes of the script's patterns *)

Lemma skip_class_app p (V t : text) :
  Forall (fun c => p c = true) V -> skip_class p (V ++ t) = skip_class p t.
Proof. induction 1 as [|c V Hc _ IH]; simpl; [done|]. by rewrite Hc. Qed.

Lemma skip_class_stop p c (t : text) :
  p c = false -> skip_class p (c :: t) = c :: t.
Proof. simpl. by intros ->. Qed.

Lemma skip_class_split p (s : text) :
  exists V, Forall (fun c => p c = true) V /\ s = V ++ skip_class p s
            /\ (skip_class p s = [] \/ exists c t, skip_class p s = c :: t /\ p c = false).
Proof.
  induction s as [|c s (V & HV & Hs & Hend)].
  - exists []. simpl. auto.
  - simpl. destruct (p c) eqn:Hc.
    + exists (c :: V). split; [by constructor|]. split; [simpl; congruence|done].
    + exists []. split; [constructor|]. split; [done|]. right. by exists c, s.
Qed.

(** A greedy repetition followed by something that cannot begin with a
    character of the class takes the whole run, and nothing is given back. *)
Lemma rep_greedy_skip p k (s : text) :
  (forall c u, p c = true -> k (c :: u) = None) ->
  rep_greedy p s k = k (skip_class p s).
Proof.
  intros Hk. induction s as [|c s IH]; simpl; [done|].
  destruct (p c) eqn:Hc; [|done].
  rewrite IH. destruct (k (skip_class p s)); [done|]. by apply Hk.
Qed.

Lemma rep_greedy_end p (s : text) :
  rep_greedy p s Some = Some (skip_class p s).
Proof.
  induction s as [|c s IH]; simpl; [done|].
  destruct (p c); [|done]. by rewrite IH.
Qed.

(** A lazy repetition stops at the first place where what follows matches. *)
Lemma rep_lazy_until p k (s : text) :
  (forall c t, p c = true -> k (c :: t) = None) ->
  (forall c t, p c = false -> k (c :: t) = Some (c :: t)) ->
  k [] = Some [] ->
  rep_lazy any_char s k = Some (skip_class p s).
Proof.
  intros Hin Hout Hnil. induction s as [|c s IH]; simpl; [by rewrite Hnil|].
  destruct (p c) eqn:Hc.
  - rewrite Hin by done. done.
  - by rewrite Hout.
Qed.

(** [L p+ q]: a literal, a run of the class, a closing character outside
    the class. *)
Lemma match_lit_run_lit (L : text) p q (s r : text) :
  p q = false ->
  match_at (seq_of [Lit L; Rep p 1 true; Lit [q]]) s = Some r <->
  exists V, V <> [] /\ Forall (fun c => p c = true) V /\ s = L ++ V ++ q :: r.
Proof.
  intros Hq. unfold match_at. simpl re_match.
  assert (forall t, rep_greedy p t
            (fun s' => match starts [q] s' with Some s'0 => Some s'0 | None => None end)
          = starts [q] (skip_class p t)) as Hg.
  { intros t. rewrite rep_greedy_skip.
    - by destruct (starts _ _).
    - intros c u Hc. simpl. destruct (Ascii.eqb_spec q c); [congruence|done]. }
  split.
  - destruct (starts L s) as [s1|] eqn:E1; [|done].
    apply starts_Some in E1 as ->.
    destruct s1 as [|c s2]; [done|]. destruct (p c) eqn:Hc; [|done].
    rewrite Hg. intros E%starts_Some.
    destruct (skip_class_split p s2) as (V & HV & Hs2 & _).
    exists (c :: V). split; [done|]. split; [by constructor|].
    rewrite Hs2, E. by simplify_list_eq.
  - intros (V & HV & Hall & ->). rewrite starts_app.
    destruct V as [|c V]; [done|]. inversion_clear Hall as [|? ? Hc Hall'].
    cbn [app rep_min]. rewrite Hc, Hg, skip_class_app by done.
    rewrite skip_class_stop by done. simpl. by rewrite Ascii.eqb_refl.
Qed.

(** Literals written with [tx] are unfolded to their characters. *)
Ltac eval_tx :=
  repeat match goal with
         | |- context [tx ?s] =>
             let v := eval vm_compute in (tx s) in change (tx s) with v
         | H : context [tx ?s] |- _ =>
             let v := eval vm_compute in (tx s) in change (tx s) with v in H
         end.

(** [header.*?(?=\[|\Z)]: the header and everything up to the next opening
    bracket, or to the end. *)
Lemma match_section (H s : text) :
  match_at (section_re H) s = skip_class not_bracket <$> starts H s.
Proof.
  unfold match_at, section_re. cbn [seq_of re_match rep_min].
  destruct (starts H s) as [s1|]; [|done]. cbn [fmap option_fmap option_map].
  eval_tx.
  apply (rep_lazy_until not_bracket); [| |done].
  - intros c t Hc. unfold not_bracket in Hc. cbn [starts].
    destruct (Ascii.eqb_spec c "[") as [->|]; [done|].
    destruct (Ascii.eqb_spec "[" c); [congruence|done].
  - intros c t Hc. unfold not_bracket in Hc. cbn [starts].
    destruct (Ascii.eqb_spec c "[") as [->|]; [|done].
    by rewrite Ascii.eqb_refl.
Qed.

(** [\n{3,}]: three line feeds and all that follow. *)
Lemma match_blank_lines (s : text) :
  match_at blank_lines_re s =
  match s with
  | c1 :: c2 :: c3 :: s' =>
      if is_nl c1 && is_nl c2 && is_nl c3 then Some (skip_class is_nl s')
      else None
  | _ => None
  end.
Proof.
  unfold match_at. simpl.
  destruct s as [|c1 [|c2 [|c3 s']]]; try done.
  - by destruct (is_nl c1).
  - by destruct (is_nl c1), (is_nl c2).
  - destruct (is_nl c1), (is_nl c2), (is_nl c3); try done.
    apply rep_greedy_end.
Qed.

(** The classifier pattern: blanks, the quoted classifier of 3.8 or 3.9, a
    comma or none, a line feed. *)
Lemma match_classifier (s r : text) :
  match_at classifier_re s = Some r <->
  exists W d, Forall (fun c => is_space c = true) W
    /\ (d = "8"%char \/ d = "9"%char)
    /\ (s = W ++ classifier_head ++ d :: dq :: tx "," ++ nl :: r
        \/ s = W ++ classifier_head ++ d :: dq :: nl :: r).
Proof.
  unfold match_at, classifier_re. cbn [seq_of re_match rep_min].
  fold classifier_head.
  rewrite rep_greedy_skip; cycle 1.
  { intros c u Hc. destruct (starts classifier_head (c :: u)) as [x|] eqn:E; [|done].
    apply starts_Some in E. injection E as -> _. by vm_compute in Hc. }
  destruct (skip_class_split is_space s) as (W & HW & Hs & Hend).
  split.
  - destruct (starts classifier_head _) as [[|d s2]|] eqn:E1; try done.
    apply starts_Some in E1.
    intros Hm.
    assert (d = "8"%char \/ d = "9"%char) as Hd.
    { destruct (Ascii.eqb_spec d "8"); [by left|].
      destruct (Ascii.eqb_spec d "9"); [by right|done]. }
    replace ((d =? "8")%char || (d =? "9")%char) with true in Hm
      by (destruct Hd as [-> | ->]; done).
    destruct (starts (tx "'") s2) as [s3|] eqn:E3; [|done].
    apply starts_Some in E3. eval_tx. cbn [app] in E3. subst s2.
    exists W, d. split; [done|]. split; [done|]. rewrite Hs, E1.
    destruct (starts [","%char] s3) as [s4|] eqn:E4.
    + apply starts_Some in E4. cbn [app] in E4. subst s3.
      destruct (starts [nl] s4) as [s5|] eqn:E5.
      * apply starts_Some in E5. cbn [app] in E5. subst s4.
        injection Hm as ->. by left.
      * destruct (starts [nl] _) eqn:E6 in Hm; [|done].
        apply starts_Some in E6. by injection E6.
    + destruct (starts [nl] s3) as [s5|] eqn:E5; [|done].
      apply starts_Some in E5. cbn [app] in E5. subst s3.
      injection Hm as ->. by right.
  - intros (W' & d & HW' & Hd & Hs').
    assert (exists t, skip_class is_space s = classifier_head ++ d :: dq :: t
              /\ (t = tx "," ++ nl :: r \/ t = nl :: r)) as (t & -> & Ht).
    { destruct Hs' as [-> | ->]; rewrite skip_class_app by done;
        (eexists; split; [reflexivity|auto]). }
    rewrite starts_app.
    replace ((d =? "8")%char || (d =? "9")%char) with true
      by (destruct Hd as [-> | ->]; done).
    eval_tx. cbn [starts]. rewrite Ascii.eqb_refl.
    destruct Ht as [-> | ->]; cbn [app starts]; by rewrite ?Ascii.eqb_refl.
Qed.

(** ** The working tree: [modify_init] and [delete_files] *)










(** ** Scanning a text in two parts *)

(** When no match that begins in [pre] reaches into what follows, and what
    follows does not change the matches inside [pre], the scan of the whole
    is the scan of the parts. *)
Lemma scan_app_local m repl (pre Y : text) :
  consuming m ->
  (forall t, t <> [] -> t `suffix_of` pre ->
             m (t ++ Y) = (fun r => r ++ Y) <$> m t) ->
  scan m repl 0 (pre ++ Y) = scan m repl 0 pre ++ scan m repl 0 Y.
Proof.
  intros Hm. revert pre.
  refine (scan_ind m repl
    (fun s y => (forall t, t <> [] -> t `suffix_of` s ->
                   m (t ++ Y) = (fun r => r ++ Y) <$> m t) ->
                scan m repl 0 (s ++ Y) = y ++ scan m repl 0 Y) Hm _ _ _).
  - done.
  - intros M r y HM E IH Hloc.
    rewrite <- !app_assoc. rewrite scan_match; [|done|].
    + rewrite IH; [done|]. intros t Ht Hsuf. apply Hloc; [done|].
      by apply suffix_app_r.
    + rewrite app_assoc, Hloc, E; [done| |done]. by destruct M.
  - intros c s y E IH Hloc. simpl app.
    rewrite scan_copy.
    + rewrite IH; [done|]. intros t Ht Hsuf. apply Hloc; [done|].
      by apply suffix_cons_r.
    + change (c :: s ++ Y) with ((c :: s) ++ Y). by rewrite Hloc, E.
Qed.

(** ** The blank-line rule *)

Lemma is_nl_true (c : ascii) : is_nl c = true <-> c = nl.
Proof. unfold is_nl. by destruct (Ascii.eqb_spec c nl). Qed.

Lemma skip_class_suffix p (s : text) : exists V, s = V ++ skip_class p s.
Proof. destruct (skip_class_split p s) as (V & _ & E & _). by exists V. Qed.

Lemma skip_class_app_stop p (t Y : text) :
  skip_class p t <> [] -> skip_class p (t ++ Y) = skip_class p t ++ Y.
Proof.
  induction t as [|c t IH]; simpl; [done|].
  destruct (p c); [done|]. done.
Qed.

Lemma skip_nl_last (t : text) :
  t <> [] -> last t <> Some nl -> skip_class is_nl t <> [].
Proof.
  induction t as [|c t IH]; [done|]. intros _ Hlast. simpl.
  destruct (is_nl c) eqn:Hc; [|done].
  destruct t as [|c' t].
  - apply is_nl_true in Hc as ->. done.
  - apply IH; [done|]. done.
Qed.

Lemma consuming_blank_lines : consuming (match_at blank_lines_re).
Proof.
  intros s r. rewrite match_blank_lines.
  destruct s as [|c1 [|c2 [|c3 s']]]; try done.
  destruct (_ && _); [|done]. intros [= <-].
  destruct (skip_class_suffix is_nl s') as [V HV].
  exists (c1 :: c2 :: c3 :: V). split; [done|]. simpl. by rewrite <- HV.
Qed.

Lemma blank_lines_local (t Y : text) :
  t <> [] -> last t <> Some nl ->
  match_at blank_lines_re (t ++ Y) = (fun r => r ++ Y) <$> match_at blank_lines_re t.
Proof.
  intros Ht Hlast. rewrite !match_blank_lines.
  assert (forall c, last t = Some c -> is_nl c = false) as Hc.
  { intros c E. destruct (is_nl c) eqn:Hc; [|done].
    apply is_nl_true in Hc as ->. done. }
  destruct t as [|c1 [|c2 [|c3 [|c4 t']]]]; [done|..].
  - destruct Y as [|? [|? ?]]; cbn [app]; by rewrite ?(Hc c1).
  - destruct Y as [|? ?]; cbn [app]; by rewrite ?(Hc c2), ?andb_false_r.
  - cbn [app]. by rewrite (Hc c3), andb_false_r.
  - cbn [app]. destruct (_ && _); [|done].
    cbn [fmap option_fmap option_map]. f_equal.
    change (c4 :: t' ++ Y) with ((c4 :: t') ++ Y).
    apply skip_class_app_stop, skip_nl_last; done.
Qed.

Lemma skip_nl_replicate (k : nat) (post : text) :
  head post <> Some nl -> skip_class is_nl (replicate k nl ++ post) = post.
Proof.
  intros Hpost. induction k as [|k IH]; simpl.
  - destruct post as [|c post]; [done|]. simpl.
    destruct (is_nl c) eqn:Hc; [|done]. apply is_nl_true in Hc as ->. done.
  - done.
Qed.

Lemma blank_lines_run (k : nat) (post : text) :
  head post <> Some nl ->
  blank_lines_rule (replicate k nl ++ post)
  = replicate (k `min` 2) nl ++ blank_lines_rule post.
Proof.
  intros Hpost. unfold blank_lines_rule, re_sub.
  assert (forall c t, post = c :: t -> is_nl c = false) as Hc.
  { intros c t ->. destruct (is_nl c) eqn:Hc; [|done].
    apply is_nl_true in Hc as ->. done. }
  destruct k as [|[|[|k]]].
  - done.
  - cbn [replicate app Nat.min]. rewrite scan_copy; [done|].
    rewrite match_blank_lines.
    destruct post as [|c [|c' t]]; try done.
    by rewrite (Hc c (c' :: t)), andb_false_r.
  - cbn [replicate app Nat.min].
    rewrite scan_copy; [rewrite scan_copy; [done|]|]; rewrite match_blank_lines.
    + destruct post as [|c [|c' t]]; try done.
      by rewrite (Hc c (c' :: t)), andb_false_r.
    + destruct post as [|c t]; try done. by rewrite (Hc c t), andb_false_r.
  - replace (S (S (S k)) `min` 2) with 2 by lia.
    rewrite scan_match; [done|done|].
    rewrite match_blank_lines. simpl. by rewrite skip_nl_replicate.
Qed.

(** C3 (as the code has it): a run of [k] line feeds, not preceded and not
    followed by a line feed, becomes a run of [min k 2] line feeds: three or
    more line feeds (two or more blank lines) become two (one blank line),
    one or two line feeds are left as they are. *)
Theorem blank_lines_collapse (pre post : text) (k : nat) :
  last pre <> Some nl -> head post <> Some nl ->
  blank_lines_rule (pre ++ replicate k nl ++ post)
  = blank_lines_rule pre ++ replicate (k `min` 2) nl ++ blank_lines_rule post.
Proof.
  intros Hpre Hpost. rewrite <- blank_lines_run by done.
  apply scan_app_local; [apply consuming_blank_lines|].
  intros t Ht [u ->]. apply blank_lines_local; [done|].
  by rewrite last_app in Hpre; destruct (last t).
Qed.

Lemma blank_lines_collapse_witness :
  blank_lines_rule (tx "a" ++ replicate 5 nl ++ tx "b|c")
  = blank_lines_rule (tx "a") ++ replicate (5 `min` 2) nl ++ blank_lines_rule (tx "b|c").
Proof. by apply blank_lines_collapse. Defined.

(** C3 (as the spec has it) fails: between [a] and [b] there is a run of
    exactly two blank lines, and the rule leaves one. *)
Lemma blank_lines_two_changed :
  blank_runs (tx "a|||b") = [2]
  /\ blank_lines_rule (tx "a|||b") = tx "a||b"
  /\ blank_runs (tx "a||b") = [1]
  /\ modify_pyproject_text (tx "pkg") (tx "a|||b") = tx "a||b".
Proof. by vm_compute. Qed.

(** ** Words that cannot overlap themselves *)

Lemma borderless_overlap (L t Z W : text) :
  borderless L = true -> t <> [] -> t ++ L ++ Z = L ++ W ->
  exists t', t = L ++ t'.
Proof.
  intros HL Ht E.
  destruct (decide (length L <= length t)) as [Hle|Hgt].
  - exists (drop (length L) t).
    apply (f_equal (take (length L))) in E.
    rewrite take_app_le, take_app_length in E by done.
    rewrite <- (take_drop (length L) t) at 1. by rewrite E.
  - exfalso. set (k := length L - length t).
    assert (take k L = drop (length L - k) L) as Hb.
    { apply (f_equal (take (length L))) in E.
      rewrite take_app_length in E.
      rewrite take_app_ge in E by lia.
      rewrite take_app_le in E by lia. fold k in E.
      replace (length L - k) with (length t) by lia.
      transitivity (drop (length t) (t ++ take k L));
        [by rewrite drop_app_length | by rewrite E]. }
    assert (In k (seq 1 (length L - 1))) as Hk.
    { apply in_seq. destruct t; simpl in *; [done|lia]. }
    unfold borderless in HL. rewrite forallb_forall in HL.
    apply HL in Hk. by rewrite bool_decide_eq_true_2 in Hk.
Qed.

(** A run of the class, closed by [q], that is read from [t] followed by
    a text beginning outside the class and not with [q], lies in [t]. *)
Lemma run_within p q (V t r y : text) (c : ascii) :
  Forall (fun c => p c = true) V -> p c = false -> c <> q ->
  t ++ c :: y = V ++ q :: r ->
  exists r', t = V ++ q :: r' /\ r = r' ++ c :: y.
Proof.
  intros HV Hc Hq. revert t. induction HV as [|v V Hv _ IH]; intros t E.
  - destruct t as [|a t]; simplify_eq/=. by exists t.
  - destruct t as [|a t]; simplify_eq/=; [congruence|].
    destruct (IH t) as (r' & -> & ->); [done|]. by exists r'.
Qed.

(** ** The requires-python rule *)

Lemma match_requires_python (s r : text) :
  match_at requires_python_re s = Some r <->
  exists N, N <> [] /\ Forall (fun c => is_digit c = true) N
            /\ s = requires_python_head ++ N ++ dq :: r.
Proof. by apply match_lit_run_lit. Qed.

Lemma consuming_requires_python : consuming (match_at requires_python_re).
Proof.
  intros s r (N & _ & _ & ->)%match_requires_python.
  exists (requires_python_head ++ N ++ [dq]).
  split; [by unfold requires_python_head; eval_tx|].
  by rewrite <- !app_assoc.
Qed.

Lemma requires_python_local (t N post : text) :
  t <> [] ->
  let Y := requires_python_head ++ N ++ dq :: post in
  match_at requires_python_re (t ++ Y)
  = (fun r => r ++ Y) <$> match_at requires_python_re t.
Proof.
  intros Ht Y. destruct (match_at requires_python_re t) as [r|] eqn:E.
  - apply match_requires_python in E as (V & HV & Hall & ->).
    cbn [fmap option_fmap option_map]. apply match_requires_python.
    exists V. by rewrite <- !app_assoc.
  - cbn [fmap option_fmap option_map].
    destruct (match_at requires_python_re (t ++ Y)) as [r'|] eqn:E'; [|done].
    exfalso.
    apply match_requires_python in E' as (V & HV & Hall & E').
    destruct (borderless_overlap requires_python_head t (N ++ dq :: post)
                (V ++ dq :: r')) as [t' ->]; [by vm_compute|done|done|].
    rewrite <- app_assoc in E'. apply app_inv_head in E'.
    destruct (run_within is_digit dq V t' r'
                (tl (requires_python_head ++ N ++ dq :: post)) "r")
      as (r & -> & _); [done|done|done|exact E'|].
    assert (match_at requires_python_re
              (requires_python_head ++ V ++ dq :: r) = Some r) as E0.
    { apply match_requires_python. by exists V. }
    congruence.
Qed.

(** C10: wherever the text has [requires-python = ">=3.N"], for any digits
    [N], the requires-python rule puts [requires-python = ">=3.10"] there,
    whether [N] is below or above 10; what lies before and after is
    rewritten by the same rule on its own.  So the whole rewrite lowers
    [>=3.12] to [>=3.10] as it raises [>=3.8]. *)
Theorem requires_python_rewritten (pre N post : text) :
  N <> [] -> Forall (fun c => is_digit c = true) N ->
  requires_python_rule (pre ++ requires_python_head ++ N ++ dq :: post)
  = requires_python_rule pre ++ requires_python_310
    ++ requires_python_rule post
  /\ modify_pyproject_text (tx "pkg") (tx "[project]|requires-python = '>=3.12'|")
     = tx "[project]|requires-python = '>=3.10'|"
  /\ modify_pyproject_text (tx "pkg") (tx "[project]|requires-python = '>=3.8'|")
     = tx "[project]|requires-python = '>=3.10'|".
Proof.
  intros HN Hall. split; [|by vm_compute].
  unfold requires_python_rule, re_sub.
  rewrite scan_app_local.
  - f_equal.
    replace (requires_python_head ++ N ++ dq :: post)
      with ((requires_python_head ++ N ++ [dq]) ++ post)
      by (by rewrite <- !app_assoc).
    rewrite scan_match; [done|by unfold requires_python_head; eval_tx|].
    apply match_requires_python. exists N. by rewrite <- !app_assoc.
  - apply consuming_requires_python.
  - intros t Ht _. by apply requires_python_local.
Qed.

Lemma requires_python_rewritten_witness :
  requires_python_rule
    (tx "[project]|" ++ requires_python_head ++ tx "12" ++ dq :: tx "|name = 'x'|")
  = requires_python_rule (tx "[project]|") ++ requires_python_310
    ++ requires_python_rule (tx "|name = 'x'|").
Proof.
  apply (requires_python_rewritten (tx "[project]|") (tx "12") (tx "|name = 'x'|")).
  - discriminate.
  - repeat constructor.
Defined.

(** ** Splitting at a separator *)

Lemma split_at_Some (sep s a b : text) :
  split_at sep s = Some (a, b) -> s = a ++ sep ++ b.
Proof.
  revert a. induction s as [|c s IH]; intros a; simpl.
  - destruct (starts sep []) as [r|] eqn:E; [|done].
    apply starts_Some in E. by intros [= <- <-].
  - destruct (starts sep (c :: s)) as [r|] eqn:E.
    + apply starts_Some in E. by intros [= <- <-].
    + destruct (split_at sep s) as [[a' b']|]; [|done].
      intros [= <- <-]. by rewrite (IH a').
Qed.




(** ** The splice of [modify_init] *)

Lemma split_triple_2 (content : text) :
  split triple 2 content =
  match split_at triple content with
  | Some (a, b) =>
      match split_at triple b with
      | Some (a2, b2) => [a; a2; b2]
      | None => [a; b]
      end
  | None => [content]
  end.
Proof.
  cbn [split]. destruct (split_at triple content) as [[a b]|]; [|done].
  by destruct (split_at triple b) as [[a2 b2]|].
Qed.




(** ** The removal of the jupyter-releaser sections *)

(** C2 does not hold of the code: when the body of the section has an
    array, as the template's has, the match ends at the array's opening
    bracket, not at the next section header; the header and the key are
    removed and the array is left behind. *)
Theorem releaser_hooks_left_behind :
  remove_section releaser_hooks
    (tx "[tool.jupyter-releaser.hooks]|before-build-python = ['jlpm clean:all']||[tool.check-wheel-contents]|ignore = ['W002']|")
  = tx "['jlpm clean:all']||[tool.check-wheel-contents]|ignore = ['W002']|"
  /\ modify_pyproject_text (tx "pkg")
       (tx "[tool.jupyter-releaser.hooks]|before-build-python = ['jlpm clean:all']||[tool.check-wheel-contents]|ignore = ['W002']|")
     = tx "['jlpm clean:all']||[tool.check-wheel-contents]|ignore = ['W002']|".
Proof. by vm_compute. Qed.

(** ** The dependency rule *)

Lemma match_nodejs_dep (s r : text) :
  match_at nodejs_dep_re s = Some r <->
  exists V, V <> [] /\ Forall (fun c => is_version_char c = true) V
            /\ s = nodejs_dep_head ++ V ++ dq :: r.
Proof. by apply (match_lit_run_lit _ (fun c => is_digit c || is_dot c)). Qed.


Lemma consuming_nodejs_dep : consuming (match_at nodejs_dep_re).
Proof.
  intros s r (V & _ & _ & ->)%match_nodejs_dep.
  exists (nodejs_dep_head ++ V ++ [dq]).
  split; [by unfold nodejs_dep_head; eval_tx|].
  by rewrite <- !app_assoc.
Qed.


(** ** Searching, and what a scan leaves *)

Lemma re_search_cons r c (s : text) :
  re_search r (c :: s)
  = match match_at r (c :: s) with Some _ => true | None => re_search r s end.
Proof. done. Qed.

Lemma suffix_cons_cases (t : text) c (s : text) :
  t `suffix_of` c :: s -> t = c :: s \/ t `suffix_of` s.
Proof.
  intros [[|a k] E]; simplify_eq/=; [by left|]. right. by exists k.
Qed.

Lemma re_search_true r (s : text) :
  re_search r s = true <->
  exists t, t `suffix_of` s /\ is_Some (match_at r t).
Proof.
  split.
  - induction s as [|c s IH].
    + simpl. destruct (match_at r []) eqn:E; [|done].
      intros _. exists []. split; [done|]. by rewrite E.
    + rewrite re_search_cons. destruct (match_at r (c :: s)) eqn:E.
      * intros _. exists (c :: s). split; [done|]. by rewrite E.
      * intros (t & Ht & Hm)%IH. exists t. split; [|done]. by apply suffix_cons_r.
  - intros (t & Ht & Hm). induction s as [|c s IH].
    + apply suffix_nil_inv in Ht as ->. simpl. by destruct Hm as [? ->].
    + rewrite re_search_cons. destruct (match_at r (c :: s)) eqn:E; [done|].
      apply IH. apply suffix_cons_cases in Ht as [-> | Ht]; [|done].
      rewrite E in Hm. by destruct Hm.
Qed.

Lemma re_search_false r (s t : text) :
  re_search r s = false -> t `suffix_of` s -> match_at r t = None.
Proof.
  intros Hs Ht. destruct (match_at r t) eqn:E; [|done].
  assert (re_search r s = true) as Hs'; [|congruence].
  apply re_search_true. exists t. by rewrite E.
Qed.

(** A text in which the pattern is not found is left as it is. *)
Lemma scan_unmatched m repl (s : text) :
  (forall t, t `suffix_of` s -> m t = None) -> scan m repl 0 s = s.
Proof.
  induction s as [|c s IH]; intros Hm.
  - apply scan_nil. by apply Hm.
  - rewrite scan_copy by (by apply Hm). f_equal. apply IH.
    intros t Ht. apply Hm. by apply suffix_cons_r.
Qed.

Lemma re_sub_unmatched r repl (s : text) :
  re_search r s = false -> re_sub r repl s = s.
Proof. intros Hs. apply scan_unmatched. intros t. by apply re_search_false. Qed.

(** A text in which the pattern is found gets a replacement. *)
Lemma scan_matched m repl (s : text) :
  consuming m ->
  (exists t, t `suffix_of` s /\ is_Some (m t)) ->
  exists u M v, scan m repl 0 s = u ++ repl M ++ v.
Proof.
  intros Hm. revert s.
  refine (scan_ind m repl
    (fun s y => (exists t, t `suffix_of` s /\ is_Some (m t)) ->
                exists u M v, y = u ++ repl M ++ v) Hm _ _ _).
  - intros (t & ->%suffix_nil_inv & [r E]).
    apply Hm in E as (M & HM & E). by destruct M.
  - intros M r y _ _ _ _. by exists [], M, y.
  - intros c s y E IH (t & Ht & Hmt).
    apply suffix_cons_cases in Ht as [-> | Ht].
    + rewrite E in Hmt. by destruct Hmt.
    + destruct IH as (u & M & v & ->); [by exists t|].
      by exists (c :: u), M, v.
Qed.

(** ** The dependency rule, continued *)





Lemma head_seg_dependency_rule (s : text) :
  head_seg (dependency_rule s) = head_seg s.
Proof.
  unfold dependency_rule, re_sub. revert s.
  refine (scan_ind _ _ (fun s y => head_seg y = head_seg s)
            consuming_nodejs_dep _ _ _).
  - done.
  - intros M r y _ (V & _ & _ & E)%match_nodejs_dep _.
    rewrite E. by vm_compute.
  - intros c s y _ IH. simpl. by rewrite IH.
Qed.










(** ** Replacing a word *)

Lemma occurs_false_suffix (w s t : text) :
  occurs w s = false -> t `suffix_of` s -> starts w t = None.
Proof.
  intros Hs [k ->]. destruct (starts w t) as [r|] eqn:E; [|done].
  apply starts_Some in E as ->.
  assert (occurs w (k ++ w ++ r) = true) as H; [|congruence].
  apply occurs_true. by exists k, r.
Qed.

Lemma consuming_starts (w : text) : w <> [] -> consuming (starts w).
Proof. intros Hw s r ->%starts_Some. by exists w. Qed.

Lemma scan_ext m m' repl k (s : text) :
  (forall t, m t = m' t) -> scan m repl k s = scan m' repl k s.
Proof.
  intros Hm. revert k. induction s as [|c s IH]; intros k; simpl.
  - by rewrite Hm.
  - destruct k; [|done]. rewrite Hm, IH.
    destruct (m' (c :: s)); [|done]. f_equal. by destruct (_ - _).
Qed.

Lemma match_at_Lit (w s : text) : match_at (Lit w) s = starts w s.
Proof. unfold match_at. simpl. by destruct (starts w s). Qed.

Lemma re_sub_Lit (w : text) repl (s : text) :
  re_sub (Lit w) repl s = scan (starts w) repl 0 s.
Proof. apply scan_ext, match_at_Lit. Qed.

(** The first occurrence of a borderless word is replaced where it
    stands. *)
Lemma scan_first_occurrence (w : text) repl (pre post : text) :
  w <> [] -> borderless w = true -> occurs w pre = false ->
  scan (starts w) repl 0 (pre ++ w ++ post)
  = pre ++ repl w ++ scan (starts w) repl 0 post.
Proof.
  intros Hw Hb Hpre.
  rewrite scan_app_local.
  - rewrite scan_unmatched by (intros t; by apply occurs_false_suffix).
    f_equal. apply scan_match; [done|]. apply starts_app.
  - by apply consuming_starts.
  - intros t Ht Hsuf. rewrite (occurs_false_suffix w pre t) by done.
    destruct (starts w (t ++ w ++ post)) as [r|] eqn:E; [|done].
    apply starts_Some in E.
    destruct (borderless_overlap w t post r) as [t' ->]; [done..|].
    pose proof (occurs_false_suffix w pre _ Hpre Hsuf) as Hn.
    by rewrite starts_app in Hn.
Qed.

Lemma scan_absent (w : text) repl (s : text) :
  occurs w s = false -> scan (starts w) repl 0 s = s.
Proof. intros Hs. apply scan_unmatched. intros t. by apply occurs_false_suffix. Qed.

(** ** The hook rule *)

(** C6 (as the code has it): the rule leaves the text as it is when the
    text has [tool.hatch.build.hooks.version] anywhere or has no
    jupyter-builder header; otherwise the hook section and a blank line are
    put before the first header, and before every later one: before the
    only one when the header occurs once. *)
Theorem hook_inserted_before_header (python_name content : text) :
  (occurs hook_marker content = true \/ occurs builder_header content = false ->
   hook_rule python_name content = content)
  /\ (forall pre post,
        content = pre ++ builder_header ++ post ->
        occurs hook_marker content = false ->
        occurs builder_header pre = false ->
        let new := version_hook python_name ++ [nl; nl] ++ builder_header in
        hook_rule python_name content
        = pre ++ new ++ str_replace builder_header new post
        /\ (occurs builder_header post = false ->
            hook_rule python_name content = pre ++ new ++ post)).
Proof.
  split.
  - intros [Hm | Hh]; unfold hook_rule.
    + by rewrite Hm.
    + destruct (negb _); [|done]. by apply scan_absent.
  - intros pre post -> Hm Hpre new. unfold hook_rule. rewrite Hm. cbn [negb].
    unfold str_replace.
    rewrite scan_first_occurrence by done.
    split; [done|]. intros Hpost. by rewrite scan_absent.
Qed.

Lemma hook_inserted_before_header_witness :
  let content := tx "[tool.hatch.version]|source = 'vcs'||[tool.hatch.build.hooks.jupyter-builder]|build-function = 'f'|" in
  hook_rule (tx "pkg") content
  = tx "[tool.hatch.version]|source = 'vcs'||"
    ++ (version_hook (tx "pkg") ++ [nl; nl] ++ builder_header)
    ++ tx "|build-function = 'f'|"
  /\ hook_rule (tx "pkg") (tx "[project]|") = tx "[project]|".
Proof.
  split.
  - destruct (hook_inserted_before_header (tx "pkg")
      (tx "[tool.hatch.version]|source = 'vcs'||[tool.hatch.build.hooks.jupyter-builder]|build-function = 'f'|"))
      as [_ H].
    apply (H (tx "[tool.hatch.version]|source = 'vcs'||") (tx "|build-function = 'f'|"));
      reflexivity.
  - apply hook_inserted_before_header. right. reflexivity.
Defined.

(** C6 (as the spec has it) fails: a text with the header twice, once in a
    comment, gets two hook sections; and a text without a version hook
    section, but with [tool.hatch.build.hooks.version] in a comment, gets
    none although the header is there. *)
Lemma hook_inserted_twice_or_never :
  let twice := tx "# see [tool.hatch.build.hooks.jupyter-builder]|[tool.hatch.build.hooks.jupyter-builder]|x = 1|" in
  let never := tx "# no tool.hatch.build.hooks.version yet|[tool.hatch.build.hooks.jupyter-builder]|x = 1|" in
  occurs hook_marker twice = false
  /\ count_sub (version_hook (tx "pkg")) (hook_rule (tx "pkg") twice) = 2
  /\ count_sub (version_hook (tx "pkg")) (modify_pyproject_text (tx "pkg") twice) = 2
  /\ occurs (tx "[tool.hatch.build.hooks.version]") never = false
  /\ occurs builder_header never = true
  /\ hook_rule (tx "pkg") never = never
  /\ modify_pyproject_text (tx "pkg") never = never.
Proof. by vm_compute. Qed.

(** ** Rules with nothing left to do *)

Lemma local_scheme_rule_unchanged (content : text) :
  occurs local_scheme content = true \/ occurs vcs_source content = false ->
  local_scheme_rule content = content.
Proof.
  unfold local_scheme_rule. intros [-> | H]; [done|].
  destruct (negb _); [|done]. rewrite re_sub_Lit. by apply scan_absent.
Qed.

Lemma hook_rule_unchanged (python_name content : text) :
  occurs hook_marker content = true \/ occurs builder_header content = false ->
  hook_rule python_name content = content.
Proof.
  unfold hook_rule. intros [-> | H]; [done|].
  destruct (negb _); [|done]. by apply scan_absent.
Qed.

Lemma source_rule_unchanged (content : text) :
  occurs nodejs_source content = false -> source_rule content = content.
Proof. intros H. unfold source_rule. rewrite re_sub_Lit. by apply scan_absent. Qed.

Lemma remove_section_unchanged (header content : text) :
  occurs header content = false -> remove_section header content = content.
Proof.
  intros H. apply scan_unmatched. intros t Ht.
  by rewrite match_section, (occurs_false_suffix header content t).
Qed.

(** A scan that puts back what it finds changes nothing. *)
Lemma scan_fixed m repl (s : text) :
  consuming m ->
  (forall M r, (M ++ r) `suffix_of` s -> m (M ++ r) = Some r -> repl M = M) ->
  scan m repl 0 s = s.
Proof.
  intros Hm. revert s.
  apply (scan_ind m repl
    (fun s y => (forall M r, (M ++ r) `suffix_of` s -> m (M ++ r) = Some r ->
                             repl M = M) -> y = s) Hm).
  - done.
  - intros M r y HM E IH Hfix. rewrite (Hfix M r), IH; [done| |done|done].
    intros M' r' Hsuf. apply Hfix. by apply suffix_app_r.
  - intros c s y E IH Hfix. f_equal. apply IH.
    intros M' r' Hsuf. apply Hfix. by apply suffix_cons_r.
Qed.

Lemma found_other_false r (w s t : text) :
  found_other r w s = false -> t `suffix_of` s -> other_here r w t = false.
Proof.
  intros Hs [k ->]. induction k as [|c k IH].
  - destruct t; simpl in Hs; by apply orb_false_elim in Hs as [? _].
  - apply IH. simpl in Hs. by apply orb_false_elim in Hs as [_ ?].
Qed.

Lemma requires_python_rule_unchanged (content : text) :
  found_other requires_python_re requires_python_310 content = false ->
  requires_python_rule content = content.
Proof.
  intros H. apply scan_fixed; [apply consuming_requires_python|].
  intros M r Hsuf E.
  pose proof (found_other_false _ _ _ _ H Hsuf) as Ho.
  unfold other_here in Ho. rewrite E in Ho.
  destruct (starts requires_python_310 (M ++ r)) as [r'|] eqn:E'; [|done].
  apply starts_Some in E'.
  apply match_requires_python in E as (N & HN & Hall & E).
  rewrite E in E'.
  change requires_python_310 with (requires_python_head ++ tx "10'") in E' |- *.
  rewrite <- app_assoc in E'. apply app_inv_head in E'.
  assert (N = tx "10" /\ r = r') as [-> ->].
  { eval_tx. destruct N as [|n1 [|n2 [|n3 N]]]; [done|..].
    - cbn [app] in E'. injection E' as -> E'.
      apply Forall_cons_1 in Hall as [_ Hall]. by destruct r'.
    - cbn [app] in E'. by injection E' as -> -> ->.
    - cbn [app] in E'. injection E' as -> -> -> _.
      apply Forall_cons_1 in Hall as [_ Hall].
      apply Forall_cons_1 in Hall as [_ Hall].
      by apply Forall_cons_1 in Hall as [? _]. }
  change (requires_python_head ++ tx "10" ++ dq :: r')
    with ((requires_python_head ++ tx "10'") ++ r') in E.
  by apply app_inv_tail in E.
Qed.

(** ** The blank-line rule leaves no three line feeds in a row *)

Lemma match_blank_lines_leading (s : text) :
  match_at blank_lines_re s = None <-> leading_nl s < 3.
Proof.
  rewrite match_blank_lines.
  destruct s as [|c1 [|c2 [|c3 s]]]; simpl;
    repeat (destruct (is_nl _); simpl); split; intros; try done; lia.
Qed.

Lemma leading_nl_skip (s : text) : leading_nl (skip_class is_nl s) = 0.
Proof.
  induction s as [|c s IH]; simpl; [done|].
  destruct (is_nl c) eqn:E; [done|]. simpl. by rewrite E.
Qed.

Lemma blank_lines_settled (s : text) :
  re_search blank_lines_re (blank_lines_rule s) = false.
Proof.
  enough (re_search blank_lines_re (blank_lines_rule s) = false
          /\ leading_nl (blank_lines_rule s) <= leading_nl s) as [H _] by done.
  unfold blank_lines_rule, re_sub. revert s.
  apply (scan_ind _ _
    (fun s y => re_search blank_lines_re y = false
                /\ leading_nl y <= leading_nl s) consuming_blank_lines).
  - done.
  - intros M r y HM E [IH Hlead].
    assert (leading_nl r = 0) as Hr.
    { rewrite match_blank_lines in E.
      destruct (M ++ r) as [|c1 [|c2 [|c3 s']]]; try done.
      destruct (_ && _); [|done]. injection E as <-. apply leading_nl_skip. }
    assert (leading_nl y = 0) as Hy by lia.
    assert (3 <= leading_nl (M ++ r)) as HMr.
    { destruct (match_blank_lines_leading (M ++ r)) as [_ H].
      destruct (decide (leading_nl (M ++ r) < 3)) as [Hlt|]; [|lia].
      apply H in Hlt. congruence. }
    split.
    + cbn [app]. rewrite !re_search_cons.
      replace (match_at blank_lines_re (nl :: nl :: y)) with (@None text)
        by (symmetry; apply match_blank_lines_leading; simpl; rewrite Hy; lia).
      replace (match_at blank_lines_re (nl :: y)) with (@None text)
        by (symmetry; apply match_blank_lines_leading; simpl; rewrite Hy; lia).
      done.
    + simpl. rewrite Hy. lia.
  - intros c s y E [IH Hlead].
    apply match_blank_lines_leading in E. split.
    + rewrite re_search_cons.
      replace (match_at blank_lines_re (c :: y)) with (@None text); [done|].
      symmetry. apply match_blank_lines_leading.
      simpl in *. destruct (is_nl c); lia.
    + simpl. destruct (is_nl c); lia.
Qed.

Lemma blank_lines_rule_idempotent (s : text) :
  blank_lines_rule (blank_lines_rule s) = blank_lines_rule s.
Proof. apply re_sub_unmatched, blank_lines_settled. Qed.

(** ** The whole rewrite, twice *)

(** C1 (as the code has it): three line feeds in a row are never left in
    the output of the rewrite, and the rewrite of its own output changes
    nothing when that output is settled. *)
Theorem modify_pyproject_twice (python_name content : text) :
  re_search blank_lines_re (modify_pyproject_text python_name content) = false
  /\ (settled (modify_pyproject_text python_name content) = true ->
      modify_pyproject_text python_name
        (modify_pyproject_text python_name content)
      = modify_pyproject_text python_name content).
Proof.
  split; [apply blank_lines_settled|].
  intros Hs. unfold settled in Hs.
  repeat (apply andb_prop in Hs as [Hs ?]).
  repeat match goal with H : negb _ = true |- _ => apply negb_true_iff in H end.
  remember (modify_pyproject_text python_name content) as y eqn:Hy.
  unfold modify_pyproject_text.
  cbv zeta. unfold dependency_rule.
  rewrite (re_sub_unmatched nodejs_dep_re _ y) by done.
  rewrite source_rule_unchanged by done.
  rewrite local_scheme_rule_unchanged
    by (destruct (occurs local_scheme y); [by left|by right; apply negb_true_iff]).
  rewrite hook_rule_unchanged
    by (destruct (occurs hook_marker y); [by left|by right; apply negb_true_iff]).
  rewrite (remove_section_unchanged releaser_options y) by done.
  rewrite (remove_section_unchanged releaser_hooks y) by done.
  rewrite requires_python_rule_unchanged by done.
  unfold classifier_rule.
  rewrite (re_sub_unmatched classifier_re _ y) by done.
  rewrite Hy. apply blank_lines_rule_idempotent.
Qed.

Lemma modify_pyproject_twice_witness :
  let content := tx "[build-system]|requires = ['hatchling>=1.5.0', 'hatch-nodejs-version>=0.3.2']||[project]|name = 'pkg'|requires-python = '>=3.8'|classifiers = [|    'Programming Language :: Python :: 3',|    'Programming Language :: Python :: 3.8',|    'Programming Language :: Python :: 3.9',|]||[tool.hatch.version]|source = 'nodejs'||[tool.hatch.build.hooks.jupyter-builder]|dependencies = ['hatch-jupyter-builder>=0.5']||[tool.jupyter-releaser.options]|version_cmd = 'hatch version'||[tool.check-wheel-contents]|ignore = ['W002']|" in
  settled (modify_pyproject_text (tx "pkg") content) = true
  /\ modify_pyproject_text (tx "pkg") (modify_pyproject_text (tx "pkg") content)
     = modify_pyproject_text (tx "pkg") content.
Proof.
  split; [vm_compute; reflexivity|].
  apply modify_pyproject_twice. vm_compute; reflexivity.
Defined.

(** C1 (as the spec has it) fails: of two classifiers on one line the first
    run removes the second and the second run the first; and a
    [local_scheme] that the first run removes with a jupyter-releaser
    section lets the second run put the raw-options section in. *)
Lemma modify_pyproject_twice_differs :
  let c1 := tx "classifiers = ['Programming Language :: Python :: 3.8', 'Programming Language :: Python :: 3.9',|]|" in
  let c2 := tx "[tool.hatch.version]|source = 'vcs'||[tool.jupyter-releaser.options]|local_scheme = 'x'|" in
  modify_pyproject_text (tx "pkg") c1
  = tx "classifiers = ['Programming Language :: Python :: 3.8',|]|"
  /\ modify_pyproject_text (tx "pkg") (modify_pyproject_text (tx "pkg") c1)
     = tx "classifiers = [|]|"
  /\ modify_pyproject_text (tx "pkg") (modify_pyproject_text (tx "pkg") c1)
     <> modify_pyproject_text (tx "pkg") c1
  /\ modify_pyproject_text (tx "pkg") c2
     = tx "[tool.hatch.version]|source = 'vcs'||"
  /\ modify_pyproject_text (tx "pkg") (modify_pyproject_text (tx "pkg") c2)
     = tx "[tool.hatch.version]|source = 'vcs'||[tool.hatch.version.raw-options]|local_scheme = 'no-local-version'||"
  /\ modify_pyproject_text (tx "pkg") (modify_pyproject_text (tx "pkg") c2)
     <> modify_pyproject_text (tx "pkg") c2.
Proof. by vm_compute. Qed.

(** ** Occurrences of a word across a scan *)

Lemma char_of_head (c : ascii) (w' : text) : char_of (c :: w') c = true.
Proof. unfold char_of. simpl. by rewrite Ascii.eqb_refl. Qed.

Lemma starts_sep (w a b : text) (c : ascii) :
  char_of w c = false ->
  is_Some (starts w (a ++ c :: b)) <-> is_Some (starts w a).
Proof.
  revert a. induction w as [|x w IH]; intros a Hc.
  - simpl. split; eauto.
  - unfold char_of in Hc. simpl in Hc. apply orb_false_elim in Hc as [Hx Hw].
    destruct a as [|e a]; cbn [app starts].
    + rewrite Ascii.eqb_sym, Hx. split; by intros [? ?].
    + destruct (Ascii.eqb x e); [by apply IH|done].
Qed.

Lemma occurs_Some (w s : text) :
  occurs w s = match s with
               | [] => bool_decide (is_Some (starts w []))
               | _ :: s' => bool_decide (is_Some (starts w s)) || occurs w s'
               end.
Proof.
  destruct s as [|c s]; simpl; destruct (starts w _) eqn:E; try done.
  all: try by rewrite bool_decide_eq_true_2.
  all: by rewrite bool_decide_eq_false_2 by (by intros [? ?]).
Qed.

(** A character that is not in [w] cuts the text in two for [w]. *)
Lemma occurs_sep (w a b : text) (c : ascii) :
  w <> [] -> char_of w c = false ->
  occurs w (a ++ c :: b) = occurs w a || occurs w b.
Proof.
  intros Hw Hc. induction a as [|e a IH].
  - cbn [app]. rewrite occurs_cons, occurs_nil.
    destruct (starts w (c :: b)) eqn:E; [|by destruct w].
    exfalso. destruct w as [|x w]; [done|].
    apply starts_Some in E. injection E as -> _.
    by rewrite char_of_head in Hc.
  - cbn [app]. rewrite (occurs_Some w (e :: a ++ c :: b)), (occurs_Some w (e :: a)).
    rewrite IH, orb_assoc. do 2 f_equal. apply bool_decide_ext.
    apply (starts_sep w (e :: a) b c Hc).
Qed.

Lemma occurs_wrapped (w p M q : text) :
  w <> [] -> wrapped w M ->
  occurs w (p ++ M ++ q) = occurs w p || occurs w q.
Proof.
  intros Hw (c1 & mid & c2 & -> & H1 & H2 & Hmid).
  cbn [app]. rewrite occurs_sep by done.
  rewrite <- app_assoc. cbn [app]. rewrite occurs_sep by done.
  by rewrite Hmid.
Qed.

Lemma occurs_scan (w : text) m repl (s : text) :
  consuming m -> w <> [] ->
  (forall M r, m (M ++ r) = Some r -> wrapped w M /\ wrapped w (repl M)) ->
  occurs w (scan m repl 0 s) = occurs w s.
Proof.
  intros Hm Hw Hwr.
  enough (forall p, occurs w (p ++ scan m repl 0 s) = occurs w (p ++ s)) as H
    by apply (H []).
  revert s. apply (scan_ind m repl
    (fun s y => forall p, occurs w (p ++ y) = occurs w (p ++ s)) Hm).
  - done.
  - intros M r y HM E IH p. destruct (Hwr M r E) as [H1 H2].
    rewrite !occurs_wrapped by done. f_equal. apply (IH []).
  - intros c s y E IH p.
    change (p ++ c :: y) with (p ++ [c] ++ y).
    change (p ++ c :: s) with (p ++ [c] ++ s).
    rewrite !app_assoc. apply IH.
Qed.

Lemma occurs_all_sep (w X : text) :
  w <> [] -> Forall (fun c => char_of w c = false) X -> occurs w X = false.
Proof.
  intros Hw. induction 1 as [|c X Hc _ IH]; [by destruct w|].
  change (c :: X) with ([] ++ c :: X).
  rewrite occurs_sep, IH, occurs_nil by done. by destruct w.
Qed.

Lemma occurs_app_sep (w T X : text) :
  w <> [] -> Forall (fun c => char_of w c = false) X ->
  occurs w (T ++ X) = occurs w T.
Proof.
  intros Hw HX. destruct X as [|c X]; [by rewrite app_nil_r|].
  apply Forall_cons_1 in HX as [Hc HX].
  by rewrite occurs_sep, (occurs_all_sep w X), orb_false_r.
Qed.

(** [local_scheme] is in the text after the first two rules exactly when it
    was in the text before. *)
Lemma local_scheme_dependency_rule (s : text) :
  occurs local_scheme (dependency_rule s) = occurs local_scheme s.
Proof.
  apply occurs_scan; [apply consuming_nodejs_dep|done|].
  intros M r (V & HV & Hall & E)%match_nodejs_dep.
  replace (nodejs_dep_head ++ V ++ dq :: r)
    with ((nodejs_dep_head ++ V ++ [dq]) ++ r) in E by (by rewrite <- !app_assoc).
  apply app_inv_tail in E as ->. split.
  - exists dq, (tx "hatch-nodejs-version>=" ++ V), dq.
    split; [by rewrite <- app_assoc|]. split; [done|]. split; [done|].
    rewrite occurs_app_sep; [done|done|].
    eapply Forall_impl; [exact Hall|]. intros c Hc.
    unfold is_version_char, is_digit, is_dot, code in Hc.
    unfold char_of, local_scheme. eval_tx. cbn [existsb].
    repeat match goal with
           | |- context [Ascii.eqb c ?x] =>
               destruct (Ascii.eqb_spec c x) as [->|_]; [by vm_compute in Hc|]
           end.
    done.
  - by exists dq, (tx "hatch-vcs>=0.4.0"), dq.
Qed.

Lemma local_scheme_source_rule (s : text) :
  occurs local_scheme (source_rule s) = occurs local_scheme s.
Proof.
  unfold source_rule. rewrite re_sub_Lit.
  apply occurs_scan; [by apply consuming_starts|done|].
  intros M r E%starts_Some. apply app_inv_tail in E as ->. split.
  - by exists "["%char, (tx "tool.hatch.version]|source = 'nodejs"), dq.
  - by exists "["%char, (tx "tool.hatch.version]|source = 'vcs"), dq.
Qed.

(** ** A word that a scan keeps *)

Lemma clash_app (a b v r : text) : clash a b = true -> a ++ v <> b ++ r.
Proof.
  revert b. induction a as [|x a IH]; intros [|y b]; simpl; try done.
  intros [Hxy | H]%orb_true_iff [= -> E].
  - by rewrite Ascii.eqb_refl in Hxy.
  - by apply (IH b).
Qed.

Lemma places_cons (c : ascii) (K : text) :
  places (c :: K) = (c :: K) :: places K.
Proof.
  unfold places. cbn [length seq map drop]. f_equal.
  rewrite <- seq_shift, map_map. done.
Qed.

Lemma scan_through m repl (K v : text) :
  (forall t, t ∈ places K -> m (t ++ v) = None) ->
  scan m repl 0 (K ++ v) = K ++ scan m repl 0 v.
Proof.
  induction K as [|c K IH]; intros H; [done|]. cbn [app].
  rewrite places_cons in H. rewrite scan_copy.
  - f_equal. apply IH. intros t Ht. apply H. by apply elem_of_cons; right.
  - apply (H (c :: K)). by apply elem_of_cons; left.
Qed.

Lemma prefix_before_bracket (M r u z : text) :
  Forall (fun c => not_bracket c = true) M ->
  M ++ r = u ++ "["%char :: z -> exists u', u = M ++ u'.
Proof.
  intros HM. revert u. induction HM as [|x M Hx _ IH]; intros u E.
  - by exists u.
  - destruct u as [|y u]; simplify_eq/=.
    destruct (IH u) as [u' ->]; [done|]. by exists u'.
Qed.

Lemma scan_keeps m repl (K u v : text) :
  consuming m -> head K = Some "["%char -> keeps m K ->
  exists u', scan m repl 0 (u ++ K ++ v) = u' ++ K ++ scan m repl 0 v.
Proof.
  intros Hm HK [H1 H2].
  remember (length u) as n eqn:Hn. revert u Hn.
  induction n as [n IH] using lt_wf_ind. intros u ->.
  destruct u as [|c u].
  - exists []. cbn [app]. apply scan_through. intros t Ht. by apply H2.
  - destruct (m ((c :: u) ++ K ++ v)) as [r|] eqn:E.
    + destruct (Hm _ _ E) as (M & HM & EM). rewrite EM in E.
      destruct M as [|c' M]; [done|]. pose proof (H1 _ _ E) as Hfree.
      cbn [tail] in Hfree. injection EM as <- EM.
      destruct K as [|k K]; [done|]. injection HK as ->.
      destruct (prefix_before_bracket M r u (K ++ v)) as [u' ->]; [done..|].
      rewrite <- app_assoc in EM. apply app_inv_head in EM as <-.
      destruct (IH (length u')) with (u := u') as [u'' Hu'']; [|done|].
      { rewrite length_cons, length_app. lia. }
      exists (repl (c :: M) ++ u'').
      change ((c :: M ++ u') ++ ("["%char :: K) ++ v)
        with (((c :: M) ++ u') ++ ("["%char :: K) ++ v).
      rewrite <- (app_assoc (c :: M) u'), scan_match, Hu'' by done.
      by rewrite <- !app_assoc.
    + cbn [app] in *. rewrite scan_copy by done.
      destruct (IH (length u)) with (u := u) as [u' Hu']; [simpl; lia|done|].
      exists (c :: u'). by rewrite Hu'.
Qed.

Lemma occurs_scan_keeps m repl (K s : text) :
  consuming m -> head K = Some "["%char -> keeps m K ->
  occurs K s = true -> occurs K (scan m repl 0 s) = true.
Proof.
  intros Hm HK Hk (u & v & ->)%occurs_true.
  destruct (scan_keeps m repl K u v) as [u' ->]; [done..|].
  apply occurs_true. eauto.
Qed.

(** No match of a pattern that begins with the literal [L] begins at a
    place that clashes with [L]. *)
Lemma places_clash (m : text -> option text) (L K : text) :
  (forall s r, m s = Some r -> exists r', s = L ++ r') ->
  forallb (fun t => clash t L) (places K) = true ->
  forall t v, t ∈ places K -> m (t ++ v) = None.
Proof.
  intros Hm Hall t v Ht. rewrite forallb_forall in Hall.
  destruct (m (t ++ v)) as [r|] eqn:E; [|done].
  apply Hm in E as [r' E]. exfalso. revert E. apply clash_app.
  apply Hall. by apply list_elem_of_In.
Qed.

Lemma not_bracket_tx (w : text) :
  forallb not_bracket w = true -> Forall (fun c => not_bracket c = true) w.
Proof. intros H. apply Forall_forall. intros c Hc%list_elem_of_In.
  by apply (proj1 (forallb_forall _ _) H). Qed.

Lemma keeps_starts (w K : text) :
  forallb not_bracket (tail w) = true ->
  forallb (fun t => clash t w) (places K) = true ->
  keeps (starts w) K.
Proof.
  intros Hw HK. split.
  - intros M r E%starts_Some. apply app_inv_tail in E as ->.
    by apply not_bracket_tx.
  - apply (places_clash _ w); [|done].
    intros s r ->%starts_Some. eauto.
Qed.

Lemma keeps_section (H K : text) :
  forallb not_bracket (tail H) = true -> H <> [] ->
  forallb (fun t => clash t H) (places K) = true ->
  keeps (match_at (section_re H)) K.
Proof.
  intros HH Hne HK. split.
  - intros M r E. rewrite match_section in E.
    destruct (starts H (M ++ r)) as [s1|] eqn:E1; [|done].
    apply starts_Some in E1. injection E as <-.
    destruct (skip_class_split not_bracket s1) as (B & HB & Hs1 & _).
    remember (skip_class not_bracket s1) as r0 eqn:Hr0. clear Hr0. subst s1.
    rewrite app_assoc in E1. apply app_inv_tail in E1 as ->.
    destruct H as [|h H]; [done|]. cbn [app tail] in *.
    apply Forall_app. split; [by apply not_bracket_tx|done].
  - apply (places_clash _ H); [|done].
    intros s r E. rewrite match_section in E.
    destruct (starts H s) as [s1|] eqn:E1; [|done].
    apply starts_Some in E1. eauto.
Qed.

Lemma consuming_section (H : text) : H <> [] -> consuming (match_at (section_re H)).
Proof.
  intros Hne s r E. rewrite match_section in E.
  destruct (starts H s) as [s1|] eqn:E1; [|done].
  apply starts_Some in E1 as ->. injection E as <-.
  destruct (skip_class_suffix not_bracket s1) as [B HB].
  exists (H ++ B). split; [by destruct H|]. by rewrite <- app_assoc, <- HB.
Qed.

Lemma digit_not_bracket (N : text) :
  Forall (fun c => is_digit c = true) N ->
  Forall (fun c => not_bracket c = true) N.
Proof.
  intros H. eapply Forall_impl; [exact H|]. intros c Hc. unfold not_bracket.
  destruct (Ascii.eqb_spec c "[") as [->|]; [by vm_compute in Hc|done].
Qed.

Lemma space_not_bracket (W : text) :
  Forall (fun c => is_space c = true) W ->
  Forall (fun c => not_bracket c = true) W.
Proof.
  intros H. eapply Forall_impl; [exact H|]. intros c Hc. unfold not_bracket.
  destruct (Ascii.eqb_spec c "[") as [->|]; [by vm_compute in Hc|done].
Qed.

Lemma nl_not_bracket (W : text) :
  Forall (fun c => is_nl c = true) W ->
  Forall (fun c => not_bracket c = true) W.
Proof.
  intros H. eapply Forall_impl; [exact H|]. by intros c ->%is_nl_true.
Qed.

Lemma Forall_tail {A} (P : A -> Prop) (l : list A) : Forall P l -> Forall P (tail l).
Proof. by destruct 1. Qed.

Lemma keeps_requires_python (K : text) :
  forallb (fun t => clash t requires_python_head) (places K) = true ->
  keeps (match_at requires_python_re) K.
Proof.
  intros HK. split.
  - intros M r (N & _ & HN & E)%match_requires_python.
    replace (requires_python_head ++ N ++ dq :: r)
      with ((requires_python_head ++ N ++ [dq]) ++ r) in E
      by (by rewrite <- !app_assoc).
    apply app_inv_tail in E as ->. apply Forall_tail.
    apply Forall_app. split; [by apply not_bracket_tx|].
    apply Forall_app. split; [by apply digit_not_bracket|by repeat constructor].
  - apply (places_clash _ requires_python_head); [|done].
    intros s r (N & _ & _ & ->)%match_requires_python. eauto.
Qed.

Lemma consuming_classifier : consuming (match_at classifier_re).
Proof.
  intros s r (W & d & _ & _ & [-> | ->])%match_classifier.
  - exists (W ++ classifier_head ++ d :: dq :: tx "," ++ [nl]).
    split; [|by rewrite <- !app_assoc].
    intros E. apply (f_equal length) in E. rewrite !length_app in E.
    simpl in E. lia.
  - exists (W ++ classifier_head ++ [d; dq; nl]).
    split; [|by rewrite <- !app_assoc].
    intros E. apply (f_equal length) in E. rewrite !length_app in E.
    simpl in E. lia.
Qed.

Lemma keeps_classifier (K : text) :
  forallb (fun t => match skip_class is_space t with
                    | c :: _ => negb (Ascii.eqb c dq)
                    | [] => false
                    end) (places K) = true ->
  keeps (match_at classifier_re) K.
Proof.
  intros HK. split.
  - intros M r (W & d & HW & Hd & E)%match_classifier.
    assert (Forall (fun c => not_bracket c = true) [d]) as Hd'.
    { destruct Hd as [-> | ->]; by repeat constructor. }
    apply Forall_tail. destruct E as [E | E].
    + replace (W ++ classifier_head ++ d :: dq :: tx "," ++ nl :: r)
        with ((W ++ classifier_head ++ [d] ++ (dq :: tx "," ++ [nl])) ++ r) in E
        by (by rewrite <- !app_assoc).
      apply app_inv_tail in E as ->.
      repeat (apply Forall_app; split); try done.
      * by apply space_not_bracket.
      * by apply not_bracket_tx.
      * by apply not_bracket_tx.
    + replace (W ++ classifier_head ++ d :: dq :: nl :: r)
        with ((W ++ classifier_head ++ [d] ++ [dq; nl]) ++ r) in E
        by (by rewrite <- !app_assoc).
      apply app_inv_tail in E as ->.
      repeat (apply Forall_app; split); try done.
      * by apply space_not_bracket.
      * by apply not_bracket_tx.
      * by apply not_bracket_tx.
  - intros t v Ht. rewrite forallb_forall in HK.
    specialize (HK t (proj1 (list_elem_of_In _ _) Ht)).
    destruct (match_at classifier_re (t ++ v)) as [r|] eqn:E; [|done].
    exfalso.
    assert (exists z, skip_class is_space (t ++ v) = dq :: z) as [z Hz].
    { apply match_classifier in E as (W & d & HW & _ & [E | E]);
        rewrite E, skip_class_app by done; by eexists. }
    destruct (skip_class is_space t) as [|c t'] eqn:Ht'; [done|].
    rewrite skip_class_app_stop, Ht' in Hz by (by rewrite Ht').
    injection Hz as -> _. by rewrite Ascii.eqb_refl in HK.
Qed.

Lemma leading_nl_app_stop (t v : text) :
  skip_class is_nl t <> [] -> leading_nl (t ++ v) = leading_nl t.
Proof.
  induction t as [|c t IH]; simpl; [done|].
  destruct (is_nl c); [|done]. intros H. by rewrite IH.
Qed.

Lemma keeps_blank_lines (K : text) :
  forallb (fun t => (leading_nl t <? 3)
                    && negb (bool_decide (skip_class is_nl t = [])))
          (places K) = true ->
  keeps (match_at blank_lines_re) K.
Proof.
  intros HK. split.
  - intros M r E. rewrite match_blank_lines in E.
    destruct (M ++ r) as [|c1 [|c2 [|c3 s']]] eqn:EM; try done.
    destruct (is_nl c1) eqn:E1, (is_nl c2) eqn:E2, (is_nl c3) eqn:E3; try done.
    injection E as <-.
    destruct (skip_class_split is_nl s') as (V & HV & Hs' & _).
    remember (skip_class is_nl s') as r0 eqn:Hr0. clear Hr0. subst s'.
    change (c1 :: c2 :: c3 :: V ++ r0) with ((c1 :: c2 :: c3 :: V) ++ r0) in EM.
    apply app_inv_tail in EM as ->. apply Forall_tail, nl_not_bracket.
    by repeat constructor.
  - intros t v Ht. rewrite forallb_forall in HK.
    specialize (HK t (proj1 (list_elem_of_In _ _) Ht)).
    apply andb_prop in HK as [Hlt Hne]. apply Nat.ltb_lt in Hlt.
    apply negb_true_iff, bool_decide_eq_false in Hne.
    apply match_blank_lines_leading. by rewrite leading_nl_app_stop.
Qed.

(** The raw-options section that [local_scheme_rule] has put in is still
    there after the rules that follow. *)
Lemma raw_options_kept (python_name s : text) :
  occurs raw_options_chunk s = true ->
  occurs raw_options_chunk
    (blank_lines_rule
       (classifier_rule
          (requires_python_rule
             (remove_section releaser_hooks
                (remove_section releaser_options
                   (hook_rule python_name s)))))) = true.
Proof.
  intros Hs.
  apply occurs_scan_keeps;
    [apply consuming_blank_lines|done|by apply keeps_blank_lines|].
  apply occurs_scan_keeps;
    [apply consuming_classifier|done|by apply keeps_classifier|].
  apply occurs_scan_keeps;
    [apply consuming_requires_python|done|by apply keeps_requires_python|].
  apply occurs_scan_keeps;
    [by apply consuming_section|done|by apply keeps_section|].
  apply occurs_scan_keeps;
    [by apply consuming_section|done|by apply keeps_section|].
  unfold hook_rule. destruct (negb _); [|done].
  apply occurs_scan_keeps;
    [by apply consuming_starts|done|by apply keeps_starts|done].
Qed.

Lemma occurs_app_l (w a b : text) : occurs w a = true -> occurs w (a ++ b) = true.
Proof.
  intros (x & y & ->)%occurs_true. apply occurs_true.
  exists x, (y ++ b). by rewrite <- !app_assoc.
Qed.

Lemma occurs_app_r (w a b : text) : occurs w b = true -> occurs w (a ++ b) = true.
Proof.
  intros (x & y & ->)%occurs_true. apply occurs_true.
  exists (a ++ x), y. by rewrite <- !app_assoc.
Qed.

Lemma occurs_trans (w k s : text) :
  occurs w k = true -> occurs k s = true -> occurs w s = true.
Proof.
  intros Hw (x & y & ->)%occurs_true. by apply occurs_app_r, occurs_app_l.
Qed.

(** ** The local-scheme rule *)

(** C7 (as the code has it): [local_scheme] is in the text that the rule
    reads exactly when it is in the input.  The rule leaves the text as it
    is when [local_scheme] is there or the vcs version source is not;
    otherwise the raw-options section is put after the first vcs version
    source (and after every later one).  When it has been put in, the output
    of the whole rewrite has [local_scheme], and in a second run of the
    rewrite on that output the rule puts nothing in. *)
Theorem local_scheme_inserted (python_name x0 : text) :
  let content := source_rule (dependency_rule x0) in
  occurs local_scheme content = occurs local_scheme x0
  /\ (occurs local_scheme x0 = true \/ occurs vcs_source content = false ->
      local_scheme_rule content = content)
  /\ (forall pre post,
        content = pre ++ vcs_source ++ post ->
        occurs local_scheme x0 = false ->
        occurs vcs_source pre = false ->
        local_scheme_rule content
        = pre ++ (vcs_source ++ raw_options)
          ++ re_sub (Lit vcs_source) (fun g1 => g1 ++ raw_options) post)
  /\ (occurs local_scheme x0 = false -> occurs vcs_source content = true ->
      let out := modify_pyproject_text python_name x0 in
      occurs local_scheme out = true
      /\ local_scheme_rule (source_rule (dependency_rule out))
         = source_rule (dependency_rule out)).
Proof.
  intros content.
  assert (forall s, occurs local_scheme (source_rule (dependency_rule s))
                    = occurs local_scheme s) as Hsame.
  { intros s. by rewrite local_scheme_source_rule, local_scheme_dependency_rule. }
  split; [apply Hsame|]. split; [|split].
  - intros [H | H]; apply local_scheme_rule_unchanged; [left|by right].
    unfold content. by rewrite Hsame.
  - intros pre post E Hx0 Hpre. unfold local_scheme_rule.
    unfold content at 1. rewrite Hsame, Hx0. cbn [negb].
    rewrite E, !re_sub_Lit.
    by rewrite (scan_first_occurrence vcs_source (fun g1 => g1 ++ raw_options)).
  - intros Hx0 Hvcs out.
    assert (occurs local_scheme out = true) as Hout.
    { apply (occurs_trans _ raw_options_chunk); [done|].
      unfold out, modify_pyproject_text. apply raw_options_kept.
      fold content. unfold local_scheme_rule.
      unfold content at 1. rewrite Hsame, Hx0. cbn [negb]. rewrite re_sub_Lit.
      destruct (scan_matched (starts vcs_source) (fun g1 => g1 ++ raw_options)
                  content) as (u & M & v & ->).
      - by apply consuming_starts.
      - apply occurs_true in Hvcs as (a & b & ->).
        exists (vcs_source ++ b). split; [by exists a|].
        rewrite starts_app. eauto.
      - apply occurs_app_r, occurs_app_l, occurs_app_r. done. }
    split; [done|]. apply local_scheme_rule_unchanged. left. by rewrite Hsame.
Qed.

Lemma local_scheme_inserted_witness :
  let x0 := tx "[project]|name = 'pkg'||[tool.hatch.version]|source = 'nodejs'||[tool.hatch.build.hooks.jupyter-builder]|" in
  let content := source_rule (dependency_rule x0) in
  let out := modify_pyproject_text (tx "pkg") x0 in
  local_scheme_rule content
  = tx "[project]|name = 'pkg'||" ++ (vcs_source ++ raw_options)
    ++ re_sub (Lit vcs_source) (fun g1 => g1 ++ raw_options)
         (tx "||[tool.hatch.build.hooks.jupyter-builder]|")
  /\ occurs local_scheme out = true
  /\ local_scheme_rule (source_rule (dependency_rule out))
     = source_rule (dependency_rule out)
  /\ local_scheme_rule (tx "[project]|local_scheme = 'x'|")
     = tx "[project]|local_scheme = 'x'|".
Proof.
  intros x0 content out.
  destruct (local_scheme_inserted (tx "pkg") x0) as (_ & _ & H3 & H4).
  split; [|split; [|split]].
  - apply H3; reflexivity.
  - apply H4; reflexivity.
  - apply H4; reflexivity.
  - destruct (local_scheme_inserted (tx "pkg") (tx "[project]|local_scheme = 'x'|"))
      as (_ & H2 & _).
    apply H2. left. reflexivity.
Defined.

(** C7 (as the spec has it) fails: this text has no [local_scheme], and
    nothing is put in, because it has no version source either. *)
Lemma local_scheme_absent_nothing_inserted :
  let x0 := tx "[project]|name = 'pkg'|" in
  occurs local_scheme x0 = false
  /\ local_scheme_rule (source_rule (dependency_rule x0))
     = source_rule (dependency_rule x0)
  /\ modify_pyproject_text (tx "pkg") x0 = x0
  /\ occurs local_scheme (modify_pyproject_text (tx "pkg") x0) = false.
Proof. by vm_compute. Qed.

(** ** What the section removal does remove *)

Lemma skip_not_bracket_stop (b z : text) :
  Forall (fun c => not_bracket c = true) b ->
  skip_class not_bracket (b ++ "["%char :: z) = "["%char :: z.
Proof. intros Hb. by rewrite skip_class_app. Qed.

Lemma section_local (H t Y : text) :
  borderless H = true -> t <> [] -> head Y = Some "["%char ->
  starts H Y <> None ->
  match_at (section_re H) (t ++ Y)
  = (fun r => r ++ Y) <$> match_at (section_re H) t.
Proof.
  intros Hb Ht HY HHY. rewrite !match_section.
  destruct Y as [|y Y]; [done|]. injection HY as ->.
  destruct (starts H t) as [s1|] eqn:E.
  - apply starts_Some in E as ->. rewrite <- app_assoc, starts_app.
    cbn [fmap option_fmap option_map]. f_equal.
    destruct (skip_class_split not_bracket s1) as (B & HB & Hs1 & Hend).
    destruct Hend as [Hnil | (c & z & Hcz & Hc)].
    + rewrite Hnil in Hs1 |- *. rewrite app_nil_r in Hs1. subst s1.
      by rewrite skip_not_bracket_stop.
    + rewrite skip_class_app_stop; [done|by rewrite Hcz].
  - destruct (starts H (t ++ "["%char :: Y)) as [r|] eqn:E'; [|done].
    exfalso. apply starts_Some in E'.
    destruct (starts H ("["%char :: Y)) as [Y'|] eqn:EY; [|done].
    apply starts_Some in EY. rewrite EY in E'.
    destruct (borderless_overlap H t Y' r) as [t' ->]; [done..|].
    by rewrite starts_app in E.
Qed.

(** A section whose body has no opening bracket is removed whole, up to
    the next opening bracket or the end, whatever comes before it. *)
Lemma remove_section_whole (H pre body post : text) :
  H <> [] -> borderless H = true -> head H = Some "["%char ->
  Forall (fun c => not_bracket c = true) body ->
  post = [] \/ head post = Some "["%char ->
  remove_section H (pre ++ H ++ body ++ post)
  = remove_section H pre ++ remove_section H post.
Proof.
  intros Hne Hb Hh Hbody Hpost. unfold remove_section, re_sub.
  rewrite scan_app_local.
  - f_equal. rewrite app_assoc.
    rewrite scan_match; [done|by destruct H|].
    rewrite match_section, <- app_assoc, starts_app.
    cbn [fmap option_fmap option_map]. f_equal.
    destruct Hpost as [-> | Hpost].
    + rewrite app_nil_r. destruct (skip_class_split not_bracket body)
        as (B & _ & HB & [Hnil | (c & z & Hcz & Hc)]); [done|].
      exfalso. rewrite Hcz in HB. rewrite HB in Hbody.
      apply Forall_app in Hbody as [_ Hbody].
      apply Forall_cons_1 in Hbody as [? _]. congruence.
    + destruct post as [|p post]; [done|]. injection Hpost as ->.
      by apply skip_not_bracket_stop.
  - by apply consuming_section.
  - intros t Ht _. apply section_local; [done..| |].
    + by destruct H.
    + by rewrite starts_app.
Qed.

(** * Further properties *)

(** ** Literal patterns *)

Lemma starts_local (w t post : text) :
  borderless w = true -> t <> [] ->
  starts w (t ++ w ++ post) = (fun r => r ++ w ++ post) <$> starts w t.
Proof.
  intros Hb Ht. destruct (starts w t) as [r|] eqn:E.
  - apply starts_Some in E as ->. by rewrite <- app_assoc, starts_app.
  - destruct (starts w (t ++ w ++ post)) as [r|] eqn:E'; [|done].
    apply starts_Some in E'.
    destruct (borderless_overlap w t post r) as [t' ->]; [done..|].
    by rewrite starts_app in E.
Qed.

Lemma scan_lit_app (w : text) repl (pre post : text) :
  w <> [] -> borderless w = true ->
  scan (starts w) repl 0 (pre ++ w ++ post)
  = scan (starts w) repl 0 pre ++ repl w ++ scan (starts w) repl 0 post.
Proof.
  intros Hw Hb. rewrite scan_app_local.
  - f_equal. apply scan_match; [done|]. apply starts_app.
  - by apply consuming_starts.
  - intros t Ht _. by apply starts_local.
Qed.

(** X1: wherever the text has the version section with the source
    [nodejs], the version-source rule puts the same section with the source
    [vcs]; what lies before and after is rewritten by the same rule on its
    own. *)
Theorem source_rule_replaces (pre post : text) :
  source_rule (pre ++ nodejs_source ++ post)
  = source_rule pre ++ vcs_source ++ source_rule post.
Proof.
  unfold source_rule. rewrite !re_sub_Lit.
  by rewrite (scan_lit_app nodejs_source (fun _ => vcs_source)).
Qed.

(** ** Patterns that begin with a character they have only once *)

Lemma before_app (a : ascii) (w r : text) :
  Forall (fun c => c <> a) w -> before a (w ++ a :: r) = w.
Proof.
  induction 1 as [|c w Hc _ IH]; cbn [app before].
  - by rewrite Ascii.eqb_refl.
  - destruct (Ascii.eqb_spec c a); [done|]. by rewrite IH.
Qed.

Lemma before_app_all (a : ascii) (w : text) :
  Forall (fun c => c <> a) w -> before a w = w.
Proof.
  induction 1 as [|c w Hc _ IH]; cbn [before]; [done|].
  destruct (Ascii.eqb_spec c a); [done|]. by rewrite IH.
Qed.

Lemma before_prefix (a : ascii) (s : text) : exists r, s = before a s ++ r.
Proof.
  induction s as [|c s [r IH]]; [by exists []|]. cbn [before].
  destruct (Ascii.eqb c a); [by eexists|]. exists r. cbn [app]. congruence.
Qed.

Lemma before_free (a : ascii) (s : text) : Forall (fun c => c <> a) (before a s).
Proof.
  induction s as [|c s IH]; cbn [before]; [constructor|].
  destruct (Ascii.eqb_spec c a); [constructor|by constructor].
Qed.

(** Whether a word without [a] opens a text is read off the text before
    its first [a]. *)
Lemma starts_before (a : ascii) (w s : text) :
  Forall (fun c => c <> a) w ->
  is_Some (starts w s) <-> is_Some (starts w (before a s)).
Proof.
  intros Hw. revert s. induction Hw as [|x w Hx _ IH]; intros s.
  - simpl. split; eauto.
  - destruct s as [|c s]; cbn [before starts]; [done|].
    destruct (Ascii.eqb_spec c a) as [->|Hc].
    + destruct (Ascii.eqb_spec x a); [done|]. cbn [starts]. split; by intros [? ?].
    + cbn [starts]. destruct (Ascii.eqb x c); [apply IH|done].
Qed.

Lemma occurs_skip_head (a : ascii) (P' R z : text) :
  Forall (fun c => c <> a) R ->
  occurs (a :: P') (R ++ z) = occurs (a :: P') z.
Proof.
  induction 1 as [|c R Hc _ IH]; [done|]. cbn [app].
  rewrite occurs_cons. cbn [starts].
  destruct (Ascii.eqb_spec a c); [congruence|done].
Qed.

(** A scan for a pattern that begins with the word [a :: P'], where [a]
    is not in [P'], leaves no [a :: P'] when what it puts in brings none. *)
Lemma scan_anchor_clean (a : ascii) (P' : text) m repl (s : text) :
  consuming m ->
  Forall (fun c => c <> a) P' ->
  (forall t, m t = None <-> starts (a :: P') t = None) ->
  (forall M r y, m (M ++ r) = Some r ->
     before a y = before a r -> occurs (a :: P') y = false ->
     occurs (a :: P') (repl M ++ y) = false /\ before a (repl M ++ y) = []) ->
  occurs (a :: P') (scan m repl 0 s) = false.
Proof.
  intros Hm HP Hiff Hrepl.
  enough (occurs (a :: P') (scan m repl 0 s) = false
          /\ before a (scan m repl 0 s) = before a s) as [H _] by done.
  revert s. apply (scan_ind m repl
    (fun s y => occurs (a :: P') y = false /\ before a y = before a s) Hm).
  - done.
  - intros M r y HM E [IH1 IH2].
    destruct (Hrepl M r y E IH2 IH1) as [H1 H2]. split; [done|].
    rewrite H2. symmetry.
    destruct (starts (a :: P') (M ++ r)) as [r'|] eqn:Es.
    + apply starts_Some in Es. rewrite Es. cbn [app before].
      by rewrite Ascii.eqb_refl.
    + apply Hiff in Es. congruence.
  - intros c s y E [IH1 IH2]. split; [|cbn [before]; by rewrite IH2].
    rewrite occurs_cons. apply Hiff in E.
    destruct (starts (a :: P') (c :: y)) as [r'|] eqn:Ey; [|done].
    exfalso. cbn [starts] in E, Ey.
    destruct (Ascii.eqb a c); [|done].
    assert (is_Some (starts P' s)) as [r0 Hr0].
    { apply (proj2 (starts_before a P' s HP)). rewrite <- IH2.
      apply (proj1 (starts_before a P' y HP)). by rewrite Ey. }
    congruence.
Qed.

Lemma forallb_ne (a : ascii) (w : text) :
  forallb (fun c => negb (Ascii.eqb c a)) w = true ->
  Forall (fun c => c <> a) w.
Proof.
  intros H. apply Forall_forall. intros c Hc%list_elem_of_In.
  apply (proj1 (forallb_forall _ _) H) in Hc.
  by destruct (Ascii.eqb_spec c a).
Qed.

Lemma clash_starts (a b z : text) : clash a b = true -> starts a (b ++ z) = None.
Proof.
  intros H. destruct (starts a (b ++ z)) as [r|] eqn:E; [|done].
  apply starts_Some in E. exfalso. revert H E. revert b.
  induction a as [|x a IH]; intros [|y b]; simpl; try done.
  intros [Hxy | H]%orb_true_iff [= -> E].
  - by rewrite Ascii.eqb_refl in Hxy.
  - by apply (IH b).
Qed.

Lemma starts_cons (a : ascii) (w : text) (c : ascii) (s : text) :
  starts (a :: w) (c :: s) = if Ascii.eqb a c then starts w s else None.
Proof. done. Qed.

Lemma source_rule_clean_aux (s : text) :
  occurs nodejs_source (source_rule s) = false.
Proof.
  unfold source_rule. rewrite re_sub_Lit.
  apply (scan_anchor_clean "[" (tx "tool.hatch.version]|source = 'nodejs'")
           (starts nodejs_source)).
  - by apply consuming_starts.
  - by apply forallb_ne.
  - done.
  - intros M r y _ Hb Hy. split; [|done].
    change vcs_source with ("["%char :: tx "tool.hatch.version]|source = 'vcs'").
    cbn [app]. rewrite occurs_cons, starts_cons, Ascii.eqb_refl.
    rewrite clash_starts by done.
    rewrite occurs_skip_head; [done|]. by apply forallb_ne.
Qed.

(** X2: the version-source rule leaves no version section with the source
    [nodejs], so a second pass of the rule changes nothing. *)
Theorem source_rule_clean (s : text) :
  occurs nodejs_source (source_rule s) = false
  /\ source_rule (source_rule s) = source_rule s.
Proof.
  split; [apply source_rule_clean_aux|].
  apply source_rule_unchanged, source_rule_clean_aux.
Qed.

(** ** The guarded rules, twice *)

(** X3: a second pass of the local-scheme rule changes nothing, on any
    text: what the rule puts in has [local_scheme], which the rule looks
    for first. *)
Theorem local_scheme_rule_idempotent (content : text) :
  local_scheme_rule (local_scheme_rule content) = local_scheme_rule content.
Proof.
  destruct (occurs local_scheme content) eqn:Hl.
  { by rewrite !(local_scheme_rule_unchanged content) by (by left). }
  destruct (occurs vcs_source content) eqn:Hv.
  2: { by rewrite !(local_scheme_rule_unchanged content) by (by right). }
  apply local_scheme_rule_unchanged. left.
  unfold local_scheme_rule. rewrite Hl. cbn [negb]. rewrite re_sub_Lit.
  destruct (scan_matched (starts vcs_source) (fun g1 => g1 ++ raw_options)
              content) as (u & M & v & ->).
  - by apply consuming_starts.
  - apply occurs_true in Hv as (a & b & ->).
    exists (vcs_source ++ b). split; [by exists a|].
    rewrite starts_app. eauto.
  - by apply occurs_app_r, occurs_app_l, occurs_app_r.
Qed.

(** X4: a second pass of the hook rule changes nothing, on any text and
    for any module name: the hook section that the rule puts in has
    [tool.hatch.build.hooks.version], which the rule looks for first. *)
Theorem hook_rule_idempotent (python_name content : text) :
  hook_rule python_name (hook_rule python_name content)
  = hook_rule python_name content.
Proof.
  destruct (occurs hook_marker content) eqn:Hm.
  { by rewrite !(hook_rule_unchanged python_name content) by (by left). }
  destruct (occurs builder_header content) eqn:Hh.
  2: { by rewrite !(hook_rule_unchanged python_name content) by (by right). }
  apply hook_rule_unchanged. left.
  unfold hook_rule. rewrite Hm. cbn [negb]. unfold str_replace.
  destruct (scan_matched (starts builder_header)
              (fun _ => version_hook python_name ++ [nl; nl] ++ builder_header)
              content) as (u & M & v & ->).
  - by apply consuming_starts.
  - apply occurs_true in Hh as (a & b & ->).
    exists (builder_header ++ b). split; [by exists a|].
    rewrite starts_app. eauto.
  - apply occurs_app_r, occurs_app_l, occurs_app_l.
    unfold version_hook. by apply occurs_app_l.
Qed.

(** ** The removal of the jupyter-releaser sections, continued *)

(** X5: a jupyter-releaser section whose body has no opening bracket is
    removed whole, header and body, up to the next opening bracket or the
    end of the text; what lies before and after is treated by the same rule
    on its own, so that two such sections are removed one by one. *)
Theorem releaser_section_removed (H pre body post : text) :
  H = releaser_options \/ H = releaser_hooks ->
  Forall (fun c => not_bracket c = true) body ->
  post = [] \/ head post = Some "["%char ->
  remove_section H (pre ++ H ++ body ++ post)
  = remove_section H pre ++ remove_section H post.
Proof.
  intros HH Hbody Hpost.
  apply remove_section_whole; try done; by destruct HH as [-> | ->].
Qed.

Lemma releaser_section_removed_witness :
  remove_section releaser_options
    (tx "[project]|name = 'x'||" ++ releaser_options
     ++ tx "|version_cmd = 'hatch version'||" ++ tx "[tool.check-wheel-contents]|")
  = remove_section releaser_options (tx "[project]|name = 'x'||")
    ++ remove_section releaser_options (tx "[tool.check-wheel-contents]|").
Proof.
  apply releaser_section_removed.
  - by left.
  - by apply not_bracket_tx.
  - by right.
Defined.

Lemma before_skip_not_bracket (s : text) :
  before "[" (skip_class not_bracket s) = [].
Proof.
  induction s as [|c s IH]; [done|]. cbn [skip_class]. unfold not_bracket at 1.
  destruct (Ascii.eqb_spec c "[") as [->|]; [|done].
  cbn [negb before]. by rewrite Ascii.eqb_refl.
Qed.

Lemma match_section_None (H t : text) :
  match_at (section_re H) t = None <-> starts H t = None.
Proof. rewrite match_section. by destruct (starts H t). Qed.

Lemma remove_section_clean_aux (H' s : text) :
  Forall (fun c => c <> "["%char) H' ->
  occurs ("["%char :: H') (remove_section ("["%char :: H') s) = false.
Proof.
  intros HH. apply (scan_anchor_clean "[" H').
  - by apply consuming_section.
  - done.
  - apply match_section_None.
  - intros M r y E Hb Hy. cbn [app]. split; [done|]. rewrite Hb.
    rewrite match_section in E.
    destruct (starts _ (M ++ r)) as [s1|]; [|done]. injection E as <-.
    apply before_skip_not_bracket.
Qed.

(** A word that begins with [a] and has it only there stays out of a text
    through a scan whose matches begin with [a], when what the scan puts in
    brings none. *)
Lemma scan_anchor_absent (a : ascii) (Q' : text) m repl (s : text) :
  consuming m ->
  Forall (fun c => c <> a) Q' ->
  (forall M r, m (M ++ r) = Some r -> before a (M ++ r) = []) ->
  (forall M r y, m (M ++ r) = Some r -> before a y = before a r ->
     before a (repl M ++ y) = []) ->
  (forall M r y, m (M ++ r) = Some r -> before a y = before a r ->
     occurs (a :: Q') y = false -> occurs (a :: Q') (repl M ++ y) = false) ->
  occurs (a :: Q') s = false ->
  occurs (a :: Q') (scan m repl 0 s) = false.
Proof.
  intros Hm HQ Hhead Hbef Hrepl.
  enough ((occurs (a :: Q') s = false ->
           occurs (a :: Q') (scan m repl 0 s) = false)
          /\ before a (scan m repl 0 s) = before a s) as [H _] by done.
  revert s. apply (scan_ind m repl
    (fun s y => (occurs (a :: Q') s = false -> occurs (a :: Q') y = false)
                /\ before a y = before a s) Hm).
  - done.
  - intros M r y HM E [IH1 IH2]. split.
    + intros Hs. apply (Hrepl M r y E IH2), IH1.
      destruct (occurs (a :: Q') r) eqn:Hr; [|done].
      rewrite <- Hs. symmetry. by apply occurs_app_r.
    + by rewrite (Hhead M r E), (Hbef M r y E IH2).
  - intros c s y E [IH1 IH2]. split; [|cbn [before]; by rewrite IH2].
    rewrite !occurs_cons.
    destruct (starts (a :: Q') (c :: s)) as [r0|] eqn:Es; [done|].
    intros Hs. specialize (IH1 Hs).
    destruct (starts (a :: Q') (c :: y)) as [r'|] eqn:Ey; [|done].
    exfalso. rewrite starts_cons in Es, Ey.
    destruct (Ascii.eqb a c); [|done].
    assert (is_Some (starts Q' s)) as [r1 Hr1].
    { apply (proj2 (starts_before a Q' s HQ)). rewrite <- IH2.
      apply (proj1 (starts_before a Q' y HQ)). by rewrite Ey. }
    congruence.
Qed.

Lemma remove_section_absent (H Q' s : text) :
  H <> [] -> head H = Some "["%char ->
  Forall (fun c => c <> "["%char) Q' ->
  occurs ("["%char :: Q') s = false ->
  occurs ("["%char :: Q') (remove_section H s) = false.
Proof.
  intros Hne Hh HQ. apply (scan_anchor_absent "[" Q').
  - by apply consuming_section.
  - done.
  - intros M r E. rewrite match_section in E.
    destruct (starts H (M ++ r)) as [s1|] eqn:Es; [|done].
    apply starts_Some in Es. rewrite Es.
    destruct H as [|h H]; [done|]. injection Hh as ->.
    cbn [app before]. by rewrite Ascii.eqb_refl.
  - intros M r y E Hb. cbn [app]. rewrite Hb. rewrite match_section in E.
    destruct (starts _ (M ++ r)) as [s1|]; [|done]. injection E as <-.
    apply before_skip_not_bracket.
  - by intros M r y _ _ Hy.
Qed.

(** X6: after the two removals the text has neither jupyter-releaser
    header, whatever it was, and a second pass of the two removals changes
    nothing. *)
Theorem releaser_sections_clean (s : text) :
  let y := remove_section releaser_hooks (remove_section releaser_options s) in
  occurs releaser_options y = false
  /\ occurs releaser_hooks y = false
  /\ remove_section releaser_hooks (remove_section releaser_options y) = y.
Proof.
  intros y.
  assert (occurs releaser_options y = false) as H1.
  { apply (remove_section_absent releaser_hooks
             (tx "tool.jupyter-releaser.options]")); [done|done|by apply forallb_ne|].
    apply (remove_section_clean_aux (tx "tool.jupyter-releaser.options]")).
    by apply forallb_ne. }
  assert (occurs releaser_hooks y = false) as H2.
  { apply (remove_section_clean_aux (tx "tool.jupyter-releaser.hooks]")).
    by apply forallb_ne. }
  split; [done|]. split; [done|].
  by rewrite (remove_section_unchanged releaser_options y),
    (remove_section_unchanged releaser_hooks y).
Qed.

(** ** Rules that put back what they look for *)

Lemma suffix_snoc_cases (u t : text) (c : ascii) :
  u <> [] -> u `suffix_of` t ++ [c] ->
  exists u0, u = u0 ++ [c] /\ u0 `suffix_of` t.
Proof.
  intros Hu [k E]. destruct u as [|x u] using rev_ind; [done|]. clear IHu.
  rewrite app_assoc in E. apply app_inj_tail in E as [-> ->].
  exists u. split; [done|]. by exists k.
Qed.

(** A scan is idempotent when what it puts in is again a match, put back
    as it is, and a match ahead does not change what is matched before
    it. *)
Lemma scan_idempotent_local m repl (s : text) :
  consuming m ->
  (forall t Y, t <> [] -> is_Some (m Y) ->
               m (t ++ Y) = (fun r => r ++ Y) <$> m t) ->
  (forall M r z, m (M ++ r) = Some r ->
                 repl M <> [] /\ m (repl M ++ z) = Some z
                 /\ repl (repl M) = repl M) ->
  scan m repl 0 (scan m repl 0 s) = scan m repl 0 s.
Proof.
  intros Hm Hloc Hrepl.
  assert (m [] = None) as Hnil.
  { destruct (m []) as [r|] eqn:E; [|done].
    apply Hm in E as (M & HM & E). by destruct M. }
  enough (forall t,
    (forall u, u <> [] -> u `suffix_of` t -> m (u ++ s) = None) ->
    scan m repl 0 (t ++ scan m repl 0 s) = t ++ scan m repl 0 s) as H.
  { apply (H []). intros u Hu Hsuf. apply suffix_nil_inv in Hsuf. done. }
  revert s. apply (scan_ind m repl
    (fun s y => forall t,
       (forall u, u <> [] -> u `suffix_of` t -> m (u ++ s) = None) ->
       scan m repl 0 (t ++ y) = t ++ y) Hm).
  - intros t Ht. rewrite app_nil_r. apply scan_unmatched.
    intros u Hsuf. destruct u as [|c u]; [done|].
    rewrite <- (app_nil_r (c :: u)). by apply Ht.
  - intros M r y HM E IH t Ht.
    destruct (Hrepl M r y E) as (Hne & Hmatch & Hfix).
    rewrite scan_app_local; [|done|].
    + rewrite scan_match, Hfix by done.
      pose proof (IH []) as IH0. cbn [app] in IH0.
      rewrite IH0 by (intros u Hu Hsuf; by apply suffix_nil_inv in Hsuf).
      f_equal. apply scan_unmatched. intros u Hsuf.
      destruct u as [|c u]; [done|].
      specialize (Ht (c :: u) ltac:(done) Hsuf).
      rewrite Hloc in Ht by (by rewrite ?E).
      by destruct (m (c :: u)).
    + intros u Hu _. apply Hloc; [done|]. by rewrite Hmatch.
  - intros c s y E IH t Ht.
    change (t ++ c :: y) with (t ++ [c] ++ y). rewrite app_assoc.
    apply IH. intros u Hu Hsuf.
    destruct (suffix_snoc_cases u t c Hu Hsuf) as (u0 & -> & Hu0).
    rewrite <- app_assoc. cbn [app].
    destruct u0 as [|c0 u0]; [done|]. by apply Ht.
Qed.

(** X7: a second pass of the requires-python rule changes nothing, on any
    text: the declarations it has written are found again and written
    again as they are. *)
Theorem requires_python_rule_idempotent (s : text) :
  requires_python_rule (requires_python_rule s) = requires_python_rule s.
Proof.
  apply scan_idempotent_local.
  - apply consuming_requires_python.
  - intros t Y Ht [r (N & _ & _ & ->)%match_requires_python].
    by apply requires_python_local.
  - intros M r z _. split; [done|]. split; [|done].
    apply match_requires_python. exists (tx "10").
    split; [done|]. split; [by repeat constructor|done].
Qed.

(** ** What the blank-line rule takes away *)

Lemma blank_match_shape (M r : text) :
  match_at blank_lines_re (M ++ r) = Some r ->
  Forall (fun c => c = nl) M /\ 3 <= length M.
Proof.
  intros E. rewrite match_blank_lines in E.
  destruct (M ++ r) as [|c1 [|c2 [|c3 s']]] eqn:EM; try done.
  destruct (is_nl c1) eqn:E1, (is_nl c2) eqn:E2, (is_nl c3) eqn:E3; try done.
  apply is_nl_true in E1 as ->, E2 as ->, E3 as ->.
  injection E as <-.
  destruct (skip_class_split is_nl s') as (V & HV & Hs' & _).
  remember (skip_class is_nl s') as r0 eqn:Hr0. clear Hr0. subst s'.
  change (nl :: nl :: nl :: V ++ r0) with ((nl :: nl :: nl :: V) ++ r0) in EM.
  apply app_inv_tail in EM as ->. split; [|simpl; lia].
  repeat constructor. eapply Forall_impl; [exact HV|].
  intros c Hc. by apply is_nl_true.
Qed.

Lemma filter_all_nl (M : text) :
  Forall (fun c => c = nl) M -> filter (fun c => c <> nl) M = [].
Proof.
  induction 1 as [|c M -> _ IH]; [done|].
  by rewrite filter_cons_False by (by intros H).
Qed.

(** X8: the blank-line rule takes away line feeds and nothing else: the
    characters other than line feeds are the same, in the same order, before
    and after, and the text does not grow. *)
Theorem blank_lines_rule_only_line_feeds (s : text) :
  filter (fun c => c <> nl) (blank_lines_rule s) = filter (fun c => c <> nl) s
  /\ length (blank_lines_rule s) <= length s.
Proof.
  unfold blank_lines_rule, re_sub. revert s.
  apply (scan_ind _ _
    (fun s y => filter (fun c => c <> nl) y = filter (fun c => c <> nl) s
                /\ length y <= length s) consuming_blank_lines).
  - done.
  - intros M r y _ [HM Hlen]%blank_match_shape [IH1 IH2]. split.
    + rewrite !filter_app, (filter_all_nl M) by done.
      by rewrite (filter_all_nl [nl; nl]) by (by repeat constructor).
    + rewrite !length_app. simpl. lia.
  - intros c s y _ [IH1 IH2]. split; [|simpl; lia].
    rewrite !filter_cons. destruct (decide (c <> nl)); by rewrite IH1.
Qed.

(** ** Texts that no rule matches *)

Lemma scan_no_trigger (L : text) m repl (s : text) :
  (forall t r, m t = Some r -> occurs L t = true) ->
  occurs L s = false -> scan m repl 0 s = s.
Proof.
  intros Hm Hs. apply scan_unmatched. intros t [k ->].
  destruct (m t) as [r|] eqn:E; [|done].
  apply Hm in E. by rewrite (occurs_app_r L k t) in Hs.
Qed.

Lemma occurs_here (L r : text) : occurs L (L ++ r) = true.
Proof. apply occurs_true. by exists [], r. Qed.

(** X9: a text with none of the words that the rules begin with (the
    nodejs-version declaration up to its version, the two version sections,
    the three section headers, the requires-python declaration up to its
    minor version, the Python 3 classifier up to its minor version, three
    line feeds in a row) is left as it is by the whole rewrite, for any
    module name. *)
Theorem modify_pyproject_no_trigger (python_name s : text) :
  Forall (fun w => occurs w s = false) triggers ->
  modify_pyproject_text python_name s = s.
Proof.
  unfold triggers. intros H.
  repeat (apply Forall_cons_1 in H as [? H]).
  unfold modify_pyproject_text. cbv zeta.
  assert (dependency_rule s = s) as ->.
  { apply (scan_no_trigger nodejs_dep_head); [|done].
    intros t r (V & _ & _ & ->)%match_nodejs_dep. apply occurs_here. }
  rewrite source_rule_unchanged by done.
  rewrite local_scheme_rule_unchanged by (by right).
  rewrite hook_rule_unchanged by (by right).
  rewrite (remove_section_unchanged releaser_options s) by done.
  rewrite (remove_section_unchanged releaser_hooks s) by done.
  assert (requires_python_rule s = s) as ->.
  { apply (scan_no_trigger requires_python_head); [|done].
    intros t r (N & _ & _ & ->)%match_requires_python. apply occurs_here. }
  assert (classifier_rule s = s) as ->.
  { apply (scan_no_trigger classifier_head); [|done].
    intros t r (W & d & _ & _ & [-> | ->])%match_classifier;
      apply occurs_app_r, occurs_here. }
  apply (scan_no_trigger [nl; nl; nl]); [|done].
  intros t r E. rewrite match_blank_lines in E.
  destruct t as [|c1 [|c2 [|c3 t']]]; try done.
  destruct (is_nl c1) eqn:E1, (is_nl c2) eqn:E2, (is_nl c3) eqn:E3; try done.
  apply is_nl_true in E1 as ->, E2 as ->, E3 as ->.
  apply (occurs_here [nl; nl; nl] t').
Qed.

Lemma modify_pyproject_no_trigger_witness :
  let s := tx "[build-system]|requires = ['setuptools']||[project]|name = 'pkg'|version = '1.0'|" in
  modify_pyproject_text (tx "pkg") s = s.
Proof.
  apply modify_pyproject_no_trigger. unfold triggers.
  repeat constructor.
Defined.

(** ** The splice of [modify_init], continued *)

Lemma version_block_marker (python_name : text) :
  occurs marker (version_block python_name) = true.
Proof. unfold version_block. by apply occurs_app_l. Qed.

Lemma splice_shape (python_name content : text) :
  exists a b,
    content = a ++ b
    /\ ((a = [] /\ splice python_name content
                  = version_block python_name ++ [nl] ++ b)
        \/ splice python_name content
           = a ++ [nl; nl] ++ version_block python_name ++ b).
Proof.
  unfold splice. rewrite split_triple_2.
  destruct (split_at triple content) as [[p0 b0]|] eqn:E0.
  2: { exists [], content. split; [done|]. left. by destruct (occurs _ _). }
  destruct (split_at triple b0) as [[p1 p2]|] eqn:E1.
  2: { exists [], content. split; [done|]. left. by destruct (occurs _ _). }
  apply split_at_Some in E0, E1. subst b0 content.
  destruct (occurs triple _).
  - exists (p0 ++ triple ++ p1 ++ triple), p2.
    split; [by rewrite <- !app_assoc|]. right. by rewrite <- !app_assoc.
  - exists [], (p0 ++ triple ++ p1 ++ triple ++ p2). split; [done|]. by left.
Qed.

Lemma splice_marker (python_name content : text) :
  occurs marker (splice python_name content) = true.
Proof.
  destruct (splice_shape python_name content)
    as (a & b & _ & [[_ ->] | ->]).
  - apply occurs_app_l, version_block_marker.
  - apply occurs_app_r, occurs_app_r, occurs_app_l, version_block_marker.
Qed.

(** X10: [modify_init] only puts text in: the text it writes is the text
    it read with the block put in at one place, on top (followed by a line
    feed) or further down (after two line feeds); and the text it writes
    always has the marker [_version]. *)
Theorem splice_inserts_only (python_name content : text) :
  (exists a b,
     content = a ++ b
     /\ ((a = [] /\ splice python_name content
                   = version_block python_name ++ [nl] ++ b)
         \/ splice python_name content
            = a ++ [nl; nl] ++ version_block python_name ++ b))
  /\ occurs marker (splice python_name content) = true.
Proof. split; [apply splice_shape|apply splice_marker]. Qed.

(** ** The steps on the working tree, continued *)




(** ** The entry point *)











(** ** The classifier rule *)







